(** * Cybereason hash collector: the paginated, deduplicating collection engine

    A shallow embedding of [Tools/Hash_Collector_API/cybereason_hash_collector.py]
    (class [CybereasonHashCollector]) and the properties of its collection
    engine: hash validation, batch extraction, the primary pagination loop,
    the Malop fallback, the orchestration of both and the CSV rows.

    Python sets of strings are [gset string], dictionaries are [gmap], integers
    are [Z], and a [str] is a [string] read as a sequence of code points below
    256.  The [while True] loop is a fuelled fixpoint over an explicit state. *)

From Stdlib Require Import ZArith Ascii String.
From stdpp Require Import gmap strings list sorting.

#[local] Set Warnings "-clear-no-such-hyp".

Local Open Scope string_scope.
Local Open Scope Z_scope.

(** ** Python values and built-ins used by the collector *)

Module Py.

(** The JSON values the API can place in a field's value list. [VOther]
    stands for a float, an array or an object, kept only by its truth
    value, which is all the collector ever asks of a value that is not a
    string. *)
Inductive value : Type :=
| VNone
| VBool (b : bool)
| VInt (n : Z)
| VStr (s : string)
| VOther (truth : bool).

(** [bool(v)] *)
Definition truthy (v : value) : bool :=
  match v with
  | VNone => false
  | VBool b => b
  | VInt n => negb (n =? 0)
  | VStr s => negb (String.eqb s "")
  | VOther t => t
  end.

(** [isinstance(v, str)] *)
Definition isinstance_str (v : value) : bool :=
  match v with VStr _ => true | _ => false end.

(** [len(s)] for a string *)
Definition len (s : string) : Z := Z.of_nat (String.length s).

Definition in_range (lo hi : N) (c : ascii) : bool :=
  ((lo <=? N_of_ascii c) && (N_of_ascii c <=? hi))%N.

(** The code points below 256 that [str.isalnum] accepts: the ASCII digits
    and letters, and in the Latin-1 block the letters (ª µ º À-Ö Ø-ö ø-ÿ),
    the superscript digits (² ³ ¹) and the vulgar fractions (¼ ½ ¾). *)
Definition char_isalnum (c : ascii) : bool :=
  in_range 48 57 c || in_range 65 90 c || in_range 97 122 c
  || in_range 170 170 c || in_range 178 179 c || in_range 181 181 c
  || in_range 185 186 c || in_range 188 190 c
  || in_range 192 214 c || in_range 216 246 c || in_range 248 255 c.

Fixpoint all_chars (p : ascii -> bool) (s : string) : bool :=
  match s with
  | EmptyString => true
  | String c s' => p c && all_chars p s'
  end.

(** [s.isalnum()]: every character is alphanumeric and there is at least
    one character. *)
Definition isalnum (s : string) : bool :=
  match s with
  | EmptyString => false
  | String _ _ => all_chars char_isalnum s
  end.

(** [needle in hay] for strings *)
Fixpoint str_in (needle hay : string) : bool :=
  String.prefix needle hay
  || match hay with
     | EmptyString => false
     | String _ hay' => str_in needle hay'
     end.

(** [l[:n]]: a negative bound counts from the end of the list. *)
Definition slice_to {A} (l : list A) (n : Z) : list A :=
  if n <? 0 then take (Z.to_nat (Z.of_nat (length l) + n)) l
  else take (Z.to_nat n) l.

(** [if limit] for an [Optional[int]]: [None] and [0] are both false. *)
Definition truthy_opt (o : option Z) : bool :=
  match o with
  | None => false
  | Some n => negb (n =? 0)
  end.

(** ["c" * n] *)
Fixpoint repeat_char (c : ascii) (n : nat) : string :=
  match n with
  | O => EmptyString
  | S n' => String c (repeat_char c n')
  end.

End Py.

Import Py.

(** ** HashValidator *)

(** [_is_valid_hash]: the [and] chain returns its first false operand, so the
    result is the candidate itself when the candidate is false, and a
    boolean otherwise. *)
Definition _is_valid_hash (hash_value : value) (expected_length : Z) : value :=
  if negb (truthy hash_value) then hash_value
  else match hash_value with
       | VStr s =>
           if negb (len s =? expected_length) then VBool false
           else VBool (isalnum s)
       | _ => VBool false
       end.

(** The validator as the claim words it. *)
Definition accepted_by_spec (candidate : value) (expected_length : Z) : Prop :=
  ∃ s, candidate = VStr s
       ∧ s ≠ ""
       ∧ all_chars char_isalnum s = true
       ∧ len s = expected_length.

(** ** PageResult: the per-entity map returned by one query *)

(** A field of an entity: [{'values': [...]}], the key may be absent. *)
Record field_data : Type := FieldData { values : option (list value) }.

(** An entity record: [{'simpleValues': {field: field_data}}], the key may be
    absent. *)
Record entity : Type := Entity { simpleValues : option (gmap string field_data) }.

(** [resultIdToElementDataMap]: entity id to entity record. *)
Abbreviation page := (gmap string entity).

(** [len(x)] for a set and for a dictionary. *)
Definition len_set (hashes : gset string) : Z := Z.of_nat (size hashes).
Definition len_page (file_hashes : page) : Z := Z.of_nat (size file_hashes).

(** ** BatchExtractor *)

(** [if self._is_valid_hash(v, n): hashes.add(v)]; a value that passes is a
    string. *)
Definition add_valid (expected_length : Z) (hashes : gset string) (v : value)
  : gset string :=
  if truthy (_is_valid_hash v expected_length) then
    match v with
    | VStr s => {[ s ]} ∪ hashes
    | _ => hashes
    end
  else hashes.

(** [if name in simple_values: data = simple_values[name];
     if 'values' in data and data['values']: for v in data['values']: ...] *)
Definition extract_field (name : string) (expected_length : Z)
    (simple_values : gmap string field_data) (hashes : gset string)
  : gset string :=
  match simple_values !! name with
  | Some data =>
      match values data with
      | Some (v :: vs) => foldl (add_valid expected_length) hashes (v :: vs)
      | _ => hashes
      end
  | None => hashes
  end.

(** The body of the [for hash_id, hash_data in file_hashes.items()] loop. *)
Definition extract_entity (hashes : gset string) (hash_data : entity)
  : gset string :=
  let simple_values := default ∅ (simpleValues hash_data) in
  let hashes := extract_field "sha1HexString" 40 simple_values hashes in
  extract_field "iconMd5HexString" 32 simple_values hashes.

Definition _extract_hashes_from_batch (file_hashes : page) : gset string :=
  foldl extract_entity ∅ (map_to_list file_hashes).*2.

(** The strings of a page that count as valid hashes, listed with their
    repetitions: the values of the SHA1 field that validate at length 40 and
    those of the icon MD5 field that validate at length 32. *)
Definition valid_string (expected_length : Z) (v : value) : option string :=
  match v with
  | VStr s => if truthy (_is_valid_hash v expected_length) then Some s else None
  | _ => None
  end.

Definition field_values (name : string) (e : entity) : list value :=
  match simpleValues e with
  | Some simple_values =>
      match simple_values !! name with
      | Some data => default [] (values data)
      | None => []
      end
  | None => []
  end.

Definition entity_valid_strings (e : entity) : list string :=
  omap (valid_string 40) (field_values "sha1HexString" e)
  ++ omap (valid_string 32) (field_values "iconMd5HexString" e).

Definition page_valid_strings (p : page) : list string :=
  concat (entity_valid_strings <$> (map_to_list p).*2).

(** Number of distinct valid hash strings across a list of pages. *)
Definition distinct_valid_count (pages : list page) : nat :=
  length (remove_dups (concat (page_valid_strings <$> pages))).

(** ** Transport and collector state *)

(** What [session.post] gives back: a response with its status code and the
    [data.resultIdToElementDataMap] of its body ([{}] when absent), or a
    [requests.exceptions.RequestException] carrying [str(e)]. *)
Inductive post_result : Type :=
| Response (status_code : Z) (result_map : page)
| RequestException (str_e : string).

(** The primary source: the answer to the [n]-th request of a run, given the
    [pageSize] and [skip] of its pagination. *)
Definition source : Type := nat → Z → Z → post_result.

(** [self.stats], the two counters the collectors update. *)
Record stats : Type := Stats { batches_processed : Z; errors : Z }.

Definition count_batch (st : stats) : stats :=
  {| batches_processed := batches_processed st + 1; errors := errors st |}.

Definition count_error (st : stats) : stats :=
  {| batches_processed := batches_processed st; errors := errors st + 1 |}.

(** The [break] statement that ended the primary loop. *)
Inductive stop_reason : Type :=
| PAGE_EMPTY          (* "No more FileHash entities found" *)
| STAGNANT            (* "No new hashes found" *)
| LIMIT_REACHED       (* "Reached target limit" *)
| SHORT_PAGE          (* "Reached end of FileHash data" *)
| BATCH_CAP_REACHED   (* "Reached maximum batch limit" *)
| BAD_STATUS          (* "Failed to fetch FileHash data" *)
| REQUEST_FAILED.     (* exception that is not a connection error *)

#[global] Instance stop_reason_eq_dec : EqDecision stop_reason.
Proof. solve_decision. Defined.

(** The local variables of [_get_file_hashes_direct] together with
    [self.stats].  [requests] counts the requests issued and [merged] lists
    the pages merged into [hashes], oldest first; the code keeps neither,
    they are there to state properties of a run. *)
Record loop_state : Type := LoopState {
  hashes : gset string;
  skip : Z;
  st : stats;
  requests : nat;
  merged : list page
}.

Inductive step_result : Type :=
| Continue (s : loop_state)
| Break (why : stop_reason) (s : loop_state)
| Raise.

Inductive outcome : Type :=
| Returned (why : stop_reason) (s : loop_state)
| ZeroDivisionError
| OutOfFuel.

Definition max_batches : Z := 10000.

(** The set of all hashes merged so far, before any trimming. *)
Definition accumulate (pages : list page) : gset string :=
  foldl (λ acc p, acc ∪ _extract_hashes_from_batch p) ∅ pages.

(** ** PrimaryCollector, SecondaryCollector, CollectionOrchestrator *)

Section Collector.

(** [list(hashes)]: the order in which Python enumerates a set is left
    open by the language, so it is a parameter of the collector. *)
Variable set_iter : gset string → list string.

(** [set(list(hashes)[:limit])] *)
Definition trim (hashes : gset string) (limit : Z) : gset string :=
  list_to_set (slice_to (set_iter hashes) limit).

(** [limit - len(hashes) if limit else None] *)
Definition remaining (limit : option Z) (hashes : gset string) : option Z :=
  match limit with
  | Some l => if truthy_opt limit then Some (l - len_set hashes) else None
  | None => None
  end.

(** [min(batch_limit, remaining_needed) if remaining_needed else batch_limit] *)
Definition page_size (batch_limit : Z) (remaining_needed : option Z) : Z :=
  match remaining_needed with
  | Some r => if truthy_opt remaining_needed then Z.min batch_limit r
              else batch_limit
  | None => batch_limit
  end.

(** [limit and len(hashes) >= limit] *)
Definition limit_hit (limit : option Z) (hashes : gset string) : bool :=
  match limit with
  | Some l => truthy_opt limit && (l <=? len_set hashes)
  | None => false
  end.

(** ["Connection broken" in str(e) or "IncompleteRead" in str(e)] *)
Definition is_connection_error (str_e : string) : bool :=
  str_in "Connection broken" str_e || str_in "IncompleteRead" str_e.

(** The [status_code == 200] branch of one iteration. *)
Definition on_page (limit : option Z) (current_batch_size : Z)
    (file_hashes : page) (s : loop_state) : step_result :=
  if bool_decide (file_hashes = ∅) then Break PAGE_EMPTY s
  else
    let initial_hash_count := len_set (hashes s) in
    let batch_hashes := _extract_hashes_from_batch file_hashes in
    let hashes' := hashes s ∪ batch_hashes in
    let new_hash_count := len_set hashes' in
    let actually_new_hashes := new_hash_count - initial_hash_count in
    let s := {| hashes := hashes'; skip := skip s; st := st s;
                requests := requests s;
                merged := merged s ++ [file_hashes] |} in
    if actually_new_hashes =? 0 then Break STAGNANT s
    else if limit_hit limit hashes' then
      Break LIMIT_REACHED
        {| hashes := trim hashes' (default 0 limit); skip := skip s;
           st := st s; requests := requests s; merged := merged s |}
    else if len_page file_hashes <? current_batch_size then
      Break SHORT_PAGE s
    else
      let s := {| hashes := hashes s; skip := skip s + current_batch_size;
                  st := count_batch (st s); requests := requests s;
                  merged := merged s |} in
      if max_batches <=? batches_processed (st s)
      then Break BATCH_CAP_REACHED s
      else Continue s.

(** One iteration of the [while True] loop.  The batch number that is
    logged before the request is [skip // batch_limit + 1], which raises
    when [batch_limit] is zero. *)
Definition direct_step (limit : option Z) (batch_limit : Z) (post : source)
    (s : loop_state) : step_result :=
  let remaining_needed := remaining limit (hashes s) in
  let current_batch_size := page_size batch_limit remaining_needed in
  if batch_limit =? 0 then Raise
  else
    let response := post (requests s) current_batch_size (skip s) in
    let s := {| hashes := hashes s; skip := skip s; st := st s;
                requests := S (requests s); merged := merged s |} in
    match response with
    | Response status_code file_hashes =>
        if status_code =? 200 then
          on_page limit current_batch_size file_hashes s
        else
          Break BAD_STATUS
            {| hashes := hashes s; skip := skip s;
               st := count_error (st s); requests := requests s;
               merged := merged s |}
    | RequestException str_e =>
        let s := {| hashes := hashes s; skip := skip s;
                    st := count_error (st s); requests := requests s;
                    merged := merged s |} in
        if is_connection_error str_e then
          Continue
            {| hashes := hashes s; skip := skip s + batch_limit;
               st := count_batch (st s); requests := requests s;
               merged := merged s |}
        else Break REQUEST_FAILED s
    end.

Fixpoint direct_loop (fuel : nat) (limit : option Z) (batch_limit : Z)
    (post : source) (s : loop_state) : outcome :=
  match fuel with
  | O => OutOfFuel
  | S fuel' =>
      match direct_step limit batch_limit post s with
      | Continue s' => direct_loop fuel' limit batch_limit post s'
      | Break why s' => Returned why s'
      | Raise => ZeroDivisionError
      end
  end.

Definition initial_state (st0 : stats) : loop_state :=
  {| hashes := ∅; skip := 0; st := st0; requests := 0; merged := [] |}.

(** [_get_file_hashes_direct(limit)] on a collector whose [batch_size] is
    [batch_size] and whose [stats] are [st0]. *)
Definition _get_file_hashes_direct (fuel : nat) (limit : option Z)
    (batch_size : Z) (post : source) (st0 : stats) : outcome :=
  direct_loop fuel limit batch_size post (initial_state st0).

(** *** SecondaryCollector *)

(** [if hash_value and isinstance(hash_value, str): hashes.add(hash_value)] *)
Definition add_string (hashes : gset string) (v : value) : gset string :=
  if truthy v && isinstance_str v then
    match v with
    | VStr s => {[ s ]} ∪ hashes
    | _ => hashes
    end
  else hashes.

Definition malop_fields : list string :=
  ["imageFile.md5String"; "imageFile.sha1String"; "imageFile.sha256String"].

Definition malop_field (simple_values : gmap string field_data)
    (hashes : gset string) (hash_field : string) : gset string :=
  match simple_values !! hash_field with
  | Some hash_data =>
      match values hash_data with
      | Some (v :: vs) => foldl add_string hashes (v :: vs)
      | _ => hashes
      end
  | None => hashes
  end.

Definition malop_entity (hashes : gset string) (process_data : entity)
  : gset string :=
  let simple_values := default ∅ (simpleValues process_data) in
  foldl (malop_field simple_values) hashes malop_fields.

(** [min(limit or 1000, 1000)] *)
Definition malop_result_limit (limit : option Z) : Z :=
  Z.min (if truthy_opt limit then default 0 limit else 1000) 1000.

(** [_get_file_hashes_from_malops(limit)]: one request, whose answer is a
    function of its [totalResultLimit]. *)
Definition _get_file_hashes_from_malops (post_malops : Z → post_result)
    (limit : option Z) (st0 : stats) : gset string * stats :=
  match post_malops (malop_result_limit limit) with
  | Response status_code malop_processes =>
      if status_code =? 200 then
        (foldl malop_entity ∅ (map_to_list malop_processes).*2, st0)
      else (∅, count_error st0)
  | RequestException _ => (∅, count_error st0)
  end.

(** *** CollectionOrchestrator *)

(** What [_collect_hashes_efficiently] leaves behind: the returned set, the
    counters, the [totalResultLimit] of the Malop request when one was
    issued, and the outcome of the primary pass. *)
Record collection : Type := Collection {
  all_hashes : gset string;
  stats_after : stats;
  malop_request : option Z;
  primary_reason : stop_reason;
  primary_state : loop_state
}.

(** [max_hashes is None or len(all_hashes) < max_hashes] *)
Definition wants_more (max_hashes : option Z) (all_hashes : gset string)
  : bool :=
  match max_hashes with
  | None => true
  | Some m => len_set all_hashes <? m
  end.

(** The two nested tests that guard the Malop query. *)
Definition malops_needed (max_hashes : option Z) (all_hashes : gset string)
  : bool :=
  wants_more max_hashes all_hashes && (len_set all_hashes <? 1000).

Definition _collect_hashes_efficiently (fuel : nat) (max_hashes : option Z)
    (batch_size : Z) (post : source) (post_malops : Z → post_result)
    (st0 : stats) : option collection :=
  match _get_file_hashes_direct fuel max_hashes batch_size post st0 with
  | Returned why s =>
      let file_hashes := hashes s in
      let all_hashes := ∅ ∪ file_hashes in
      if wants_more max_hashes all_hashes then
        let remaining_limit := remaining max_hashes all_hashes in
        if len_set all_hashes <? 1000 then
          let '(malop_hashes, st1) :=
            _get_file_hashes_from_malops post_malops remaining_limit (st s) in
          Some {| all_hashes := all_hashes ∪ malop_hashes;
                  stats_after := st1;
                  malop_request := Some (malop_result_limit remaining_limit);
                  primary_reason := why; primary_state := s |}
        else
          Some {| all_hashes := all_hashes; stats_after := st s;
                  malop_request := None;
                  primary_reason := why; primary_state := s |}
      else
        Some {| all_hashes := all_hashes; stats_after := st s;
                malop_request := None;
                primary_reason := why; primary_state := s |}
  | ZeroDivisionError | OutOfFuel => None
  end.

(** *** Result rows *)

(** The [if/elif] chain on [len(hash_value)] in [_save_hashes_to_csv]. *)
Definition hash_type (hash_value : string) : string :=
  if len hash_value =? 32 then "MD5"
  else if len hash_value =? 40 then "SHA1"
  else if len hash_value =? 64 then "SHA256"
  else "UNKNOWN".

(** [sorted(hashes)]: a stable merge sort of the set's enumeration under
    the code-point order of strings. *)
Definition sorted (hashes : gset string) : list string :=
  merge_sort String.le (set_iter hashes).

(** The rows written after the header, in order. *)
Definition csv_rows (hashes : gset string) (collection_date : string)
  : list (string * string * string) :=
  (λ hash_value, (hash_value, hash_type hash_value, collection_date))
    <$> sorted hashes.

End Collector.

(** The kind of a hash as the claim words it: a function of the length. *)
Definition kind_of_length (n : Z) : string :=
  if n =? 32 then "MD5"
  else if n =? 40 then "SHA1"
  else if n =? 64 then "SHA256"
  else "UNKNOWN".

(** The loop invariant of the primary collector: [hashes] is what the merged
    pages hold, and a positive target has not been reached yet. *)
Definition loop_inv (limit : option Z) (s : loop_state) : Prop :=
  hashes s = accumulate (merged s)
  ∧ ∀ l, limit = Some l → 0 < l → len_set (hashes s) < l.

(** ** Sources and pages used in the examples *)

Module Scenario.

Definition a40 : string := repeat_char "a" 40.
Definition b40 : string := repeat_char "b" 40.
Definition c32 : string := repeat_char "c" 32.

(** An entity with the given SHA1 and icon MD5 value lists. *)
Definition file_hash (sha1 md5 : list value) : entity :=
  Entity (Some {[ "sha1HexString" := FieldData (Some sha1);
                  "iconMd5HexString" := FieldData (Some md5) ]}).

(** An entity that carries only a SHA1 field. *)
Definition sha1_only (sha1 : list value) : entity :=
  Entity (Some {[ "sha1HexString" := FieldData (Some sha1) ]}).

(** page1 = {A: sha1 = "a"*40}, page2 = {B: sha1 = "a"*40} *)
Definition page1 : page := {[ "A" := sha1_only [VStr a40] ]}.
Definition page2 : page := {[ "B" := sha1_only [VStr a40] ]}.

(** A page that repeats a hash of [page1] and brings two new ones, among
    values that do not validate. *)
Definition page_mixed : page :=
  {[ "C" := file_hash [VStr a40; VStr b40; VNone; VStr "short"]
                      [VStr c32; VStr a40; VInt 7] ]}.

(** A source that serves the given pages in turn, then empty pages. *)
Definition pages_in_turn (pages : list page) : source :=
  λ n _ _, Response 200 (default ∅ (pages !! n)).

(** A source that repeats one page for ever. *)
Definition repeating (p : page) : source := λ _ _ _, Response 200 p.

(** The counters of a collector that has not run yet. *)
Definition fresh : stats := {| batches_processed := 0; errors := 0 |}.

(** The state a run returned with. *)
Definition final_state (o : outcome) : loop_state :=
  match o with
  | Returned _ s => s
  | ZeroDivisionError | OutOfFuel => initial_state fresh
  end.

(** The state in which the run over [page1], [page_mixed], [page2] with
    batch size 1 ends. *)
Definition dedup_final : loop_state :=
  {| hashes := {[ a40; b40; c32 ]}; skip := 2;
     st := {| batches_processed := 2; errors := 0 |};
     requests := 3; merged := [page1; page_mixed; page2] |}.

(** [n] distinct strings of 40 alphanumeric characters: three decimal
    digits followed by 37 times "a". *)
Definition digit (d : nat) : ascii := ascii_of_nat (48 + d).

Definition nth_hash (n : nat) : string :=
  String (digit (n / 100)) (String (digit (n / 10 mod 10))
    (String (digit (n mod 10)) (repeat_char "a" 37))).

Definition hashes_upto (n : nat) : list string := nth_hash <$> seq 0 n.

(** A page of one entity that carries the first [n] of these hashes. *)
Definition page_many (n : nat) : page :=
  {[ "E" := sha1_only (VStr <$> hashes_upto n) ]}.

(** A page of [n] entities, one fresh hash each. *)
Definition page_of (n : nat) : page :=
  list_to_map ((λ h, (h, sha1_only [VStr h])) <$> hashes_upto n).

(** A Malop source that answers with one process carrying two image-file
    hashes. *)
Definition malop_entity_two : entity :=
  Entity (Some {[ "imageFile.md5String" := FieldData (Some [VStr c32]);
                  "imageFile.sha1String" := FieldData (Some [VStr b40]) ]}).

Definition malops_two : Z → post_result :=
  λ _, Response 200 {[ "P" := malop_entity_two ]}.

End Scenario.

(** ** Loop entries *)

(** The states in which the body of the [while True] loop is entered during
    a run of [_get_file_hashes_direct]: the initial one, and each state left
    by an iteration that did not [break]. *)
Inductive entered (set_iter : gset string → list string) (limit : option Z)
    (batch_limit : Z) (post : source) (st0 : stats) : loop_state → Prop :=
| entered_first :
    entered set_iter limit batch_limit post st0 (initial_state st0)
| entered_next s s' :
    entered set_iter limit batch_limit post st0 s →
    direct_step set_iter limit batch_limit post s = Continue s' →
    entered set_iter limit batch_limit post st0 s'.

(** What one request is: merged into the set, failed, or answered with an
    empty result map. *)
Definition empty_answers (why : stop_reason) : Z :=
  match why with
  | PAGE_EMPTY => 1
  | _ => 0
  end.

(** ** The strings the Malop collector keeps *)

(** A value the Malop collector keeps: a non-empty string. *)
Definition kept_string (v : value) : option string :=
  match v with
  | VStr s => if truthy v then Some s else None
  | _ => None
  end.

(** The strings kept from one Malop process, field by field. *)
Definition malop_entity_strings (e : entity) : list string :=
  concat ((λ hash_field, omap kept_string (field_values hash_field e))
            <$> malop_fields).

(** ** The run as a whole: [collect_hashes] and [_save_hashes_to_csv] *)






(** ** Construction and authentication *)

Module Text.

(** [c.lower()] on the code points below 256: the ASCII capitals and the
    Latin-1 capitals (À-Ö, Ø-Þ) move up by 32, the rest stays. *)
Definition char_lower (c : ascii) : ascii :=
  if in_range 65 90 c || in_range 192 214 c || in_range 216 222 c
  then ascii_of_N (N_of_ascii c + 32)
  else c.

(** [s.lower()] *)
Fixpoint lower (s : string) : string :=
  match s with
  | EmptyString => EmptyString
  | String c s' => String (char_lower c) (lower s')
  end.

(** [s.rstrip(ch)] for a one-character argument. *)
Fixpoint rstrip (ch : ascii) (s : string) : string :=
  match s with
  | EmptyString => EmptyString
  | String c s' =>
      match rstrip ch s' with
      | EmptyString => if Ascii.eqb c ch then EmptyString
                       else String c EmptyString
      | String _ _ as kept => String c kept
      end
  end.

End Text.

Import Text.

(** [self.server_url] as [__init__] stores it. *)
Definition init_server_url (server_url : string) : string :=
  rstrip "/" server_url.

(** The requests of the authentication handshake. *)
Inductive call : Type :=
| GET (url : string)
| POST (url : string) (username password : string).

#[global] Instance call_eq_dec : EqDecision call.
Proof. solve_decision. Defined.

(** What the session gives back for a call: a response with its status
    code, its final URL and its text, or an exception. *)
Inductive http_result : Type :=
| HttpResponse (status_code : Z) (url text : string)
| HttpError (str_e : string).

Definition server : Type := call → http_result.

(** [status_code in [200, 401, 403]] *)
Definition server_is_up (status_code : Z) : bool :=
  (status_code =? 200) || (status_code =? 401) || (status_code =? 403).

(** [_test_server_accessibility]: the answer and the calls made. *)
Definition _test_server_accessibility (srv : server) (server_url : string)
  : bool * list call :=
  let request := GET (server_url +:+ "/") in
  match srv request with
  | HttpResponse status_code _ _ => (server_is_up status_code, [request])
  | HttpError _ => (false, [request])
  end.

(** [_is_authentication_successful(response)] on [response.url] and
    [response.text]. *)
Definition _is_authentication_successful (url text : string) : bool :=
  if str_in "dashboard" (lower url) || str_in "main" (lower url) then true
  else if str_in "dashboard" (lower text)
          || str_in "main" (lower text)
          || str_in "app></app>" text
          || (2000 <? len text)
       then true
       else false.

(** [_perform_login]: the answer and the calls made. *)
Definition _perform_login (srv : server) (server_url username password : string)
  : bool * list call :=
  let login_url := server_url +:+ "/login.html" in
  match srv (GET login_url) with
  | HttpResponse status_code _ _ =>
      if negb (status_code =? 200) then (false, [GET login_url])
      else
        match srv (POST login_url username password) with
        | HttpResponse _ url text =>
            (_is_authentication_successful url text,
             [GET login_url; POST login_url username password])
        | HttpError _ =>
            (false, [GET login_url; POST login_url username password])
        end
  | HttpError _ => (false, [GET login_url])
  end.

(** [authenticate]: the answer and the calls made, in order. *)
Definition authenticate (srv : server) (server_url username password : string)
  : bool * list call :=
  let '(up, calls) := _test_server_accessibility srv server_url in
  if negb up then (false, calls)
  else
    let '(ok, login_calls) :=
      _perform_login srv server_url username password in
    (ok, (calls ++ login_calls)%list).

(** What the last answer of a run must have been, for each reason to stop;
    [s] is the state in which the last iteration was entered and [s'] the
    state returned. *)
Definition stop_condition (limit : option Z) (batch_limit : Z)
    (answer : post_result) (s s' : loop_state) (why : stop_reason) : Prop :=
  let asked := page_size batch_limit (remaining limit (hashes s)) in
  match why with
  | PAGE_EMPTY => answer = Response 200 ∅ ∧ hashes s' = hashes s
  | STAGNANT =>
      ∃ file_hashes,
        answer = Response 200 file_hashes ∧ file_hashes ≠ ∅
        ∧ _extract_hashes_from_batch file_hashes ⊆ hashes s
        ∧ hashes s' = hashes s
  | LIMIT_REACHED =>
      ∃ file_hashes l,
        answer = Response 200 file_hashes ∧ limit = Some l ∧ l ≠ 0
        ∧ l ≤ len_set (hashes s ∪ _extract_hashes_from_batch file_hashes)
  | SHORT_PAGE =>
      ∃ file_hashes,
        answer = Response 200 file_hashes ∧ file_hashes ≠ ∅
        ∧ len_page file_hashes < asked
        ∧ hashes s' = hashes s ∪ _extract_hashes_from_batch file_hashes
  | BATCH_CAP_REACHED =>
      ∃ file_hashes,
        answer = Response 200 file_hashes
        ∧ asked ≤ len_page file_hashes
        ∧ max_batches ≤ batches_processed (st s')
        ∧ batches_processed (st s') = batches_processed (st s) + 1
        ∧ hashes s' = hashes s ∪ _extract_hashes_from_batch file_hashes
  | BAD_STATUS =>
      ∃ status_code file_hashes,
        answer = Response status_code file_hashes ∧ status_code ≠ 200
        ∧ hashes s' = hashes s
  | REQUEST_FAILED =>
      ∃ str_e,
        answer = RequestException str_e
        ∧ is_connection_error str_e = false
        ∧ hashes s' = hashes s
  end.

(** ** Further sources and states used in examples *)

Module Cases.

Import Scenario.

(** A connection that breaks once, then two pages, then nothing. *)
Definition flaky : source :=
  λ n _ _,
    match n with
    | 0%nat => RequestException
                 "Connection broken: IncompleteRead(0 bytes read)"
    | 1%nat => Response 200 page1
    | 2%nat => Response 200 page_mixed
    | _ => Response 200 ∅
    end.

(** A connection that breaks on every request. *)
Definition always_broken : source :=
  λ _ _ _, RequestException "Connection broken".

(** The counters of a collector that has already processed 9990 batches. *)
Definition worn : stats := {| batches_processed := 9990; errors := 0 |}.

(** The state after [page1] was merged with batch size 1. *)
Definition after_page1 : loop_state :=
  {| hashes := {[ a40 ]}; skip := 1;
     st := {| batches_processed := 1; errors := 0 |};
     requests := 1; merged := [page1] |}.

(** The state in which a run over [page1] alone ends, batch size 1000. *)
Definition only_page1 : loop_state :=
  {| hashes := {[ a40 ]}; skip := 0; st := fresh; requests := 1;
     merged := [page1] |}.

(** A Malop answer with a string that is no hash, an empty string and a
    null. *)
Definition malops_odd : Z → post_result :=
  λ _, Response 200
         {[ "P" := Entity (Some {[ "imageFile.sha256String" :=
                     FieldData (Some [VStr "not-a-hash"; VStr ""; VNone]) ]}) ]}.

(** The collection and the report a call returned. *)
Definition collected (o : option collection) : collection :=
  default {| all_hashes := ∅; stats_after := fresh; malop_request := None;
             primary_reason := PAGE_EMPTY;
             primary_state := initial_state fresh |} o.


(** A server that is up (401 on its root), serves its login page, and
    answers the login with status 500 on a URL that holds "MAIN". *)
Definition portal : server :=
  λ c,
    match c with
    | GET url =>
        if String.eqb url "https://x/" then HttpResponse 401 url ""
        else HttpResponse 200 url "<html>login</html>"
    | POST url _ _ => HttpResponse 500 "https://x/MAIN" ""
    end.

End Cases.

(** * Properties *)

(** ** Python built-ins *)

Section PyFacts.

Lemma truthy_str s : truthy (VStr s) = true ↔ s ≠ "".
Proof.
  simpl. rewrite negb_true_iff. split.
  - intros H ->. discriminate H.
  - apply String.eqb_neq.
Qed.

Lemma isalnum_spec s :
  isalnum s = true ↔ s ≠ "" ∧ all_chars char_isalnum s = true.
Proof. destruct s; simpl; [|by split; [|intros [_ ?]]]. by split; [|intros [? _]]. Qed.

Lemma len_nonneg s : 0 ≤ len s.
Proof. unfold len. lia. Qed.

Lemma len_repeat_char c n : len (repeat_char c n) = Z.of_nat n.
Proof. unfold len. f_equal. induction n; simpl; congruence. Qed.

Lemma all_chars_repeat_char p c n :
  p c = true → all_chars p (repeat_char c n) = true.
Proof. intros Hc. induction n; simpl; [done|]. by rewrite Hc. Qed.

(** A string with a character outside the alphabet fails [all_chars]. *)
Lemma all_chars_app p s1 s2 :
  all_chars p (s1 +:+ s2) = all_chars p s1 && all_chars p s2.
Proof.
  induction s1 as [|c s1 IH]; simpl; [done|].
  change (String c s1 +:+ s2) with (String c (s1 +:+ s2)). simpl.
  by rewrite IH, andb_assoc.
Qed.

Lemma prefix_spec s1 s2 :
  String.prefix s1 s2 = true ↔ ∃ b, s2 = s1 +:+ b.
Proof.
  revert s2. induction s1 as [|c s1 IH]; intros s2.
  - destruct s2; simpl; split; eauto.
  - destruct s2 as [|d s2]; simpl.
    + split; [done|]. by intros [b ?].
    + destruct (Ascii.ascii_dec c d) as [->|Hne].
      * rewrite IH. split; intros [b Hb]; exists b.
        -- by rewrite Hb.
        -- by injection Hb.
      * split; [done|]. intros [b Hb]. injection Hb. congruence.
Qed.

(** [needle in hay] holds exactly when [hay] is some text, then [needle],
    then some text. *)
Lemma str_in_spec needle hay :
  str_in needle hay = true ↔ ∃ a b, hay = a +:+ needle +:+ b.
Proof.
  induction hay as [|c hay IH]; cbn [str_in];
    rewrite orb_true_iff, prefix_spec.
  - split.
    + intros [[b Hb]|?]; [|done]. by exists "", b.
    + intros ([|? a] & b & Hab); [|done]. left. by exists b.
  - rewrite IH. split.
    + intros [[b Hb]|(a & b & Hab)].
      * by exists "", b.
      * exists (String c a), b. by rewrite Hab.
    + intros ([|d a] & b & Hab).
      * left. by exists b.
      * right. injection Hab as -> ->. by exists a, b.
Qed.

End PyFacts.

(** ** HashValidator *)

Section Validator.

Lemma valid_iff v n :
  truthy (_is_valid_hash v n) = true
  ↔ ∃ s, v = VStr s ∧ len s = n ∧ isalnum s = true.
Proof.
  unfold _is_valid_hash. destruct (truthy v) eqn:Hv; simpl.
  - destruct v as [| | |s|]; simpl; try (split; [done|by intros (?&?&?)]).
    destruct (len s =? n) eqn:Hlen; simpl.
    + apply Z.eqb_eq in Hlen. split; [by eauto|].
      by intros (? & [= <-] & _ & ?).
    + apply Z.eqb_neq in Hlen. split; [done|].
      by intros (? & [= <-] & ? & _).
  - rewrite Hv. split; [done|]. intros (s & -> & _ & Hs).
    destruct s; [done|]. by simpl in Hv.
Qed.

Lemma valid_string_Some n v s :
  valid_string n v = Some s
  ↔ v = VStr s ∧ truthy (_is_valid_hash v n) = true.
Proof.
  unfold valid_string. destruct v; try (split; [done|by intros [? _]]).
  destruct (truthy _); split; [by intros [= ->]|by intros [[= ->] _]|done|by intros [_ ?]].
Qed.

Lemma rejected_result v n :
  truthy (_is_valid_hash v n) = false →
  _is_valid_hash v n = VBool false ∨ _is_valid_hash v n = v.
Proof.
  unfold _is_valid_hash. destruct (truthy v); simpl; [|by right].
  destruct v as [| | |s|]; try by left.
  destruct (len s =? n); simpl; [|by left].
  destruct (isalnum s); [done|by left].
Qed.

End Validator.

(** C7. The validator accepts a candidate exactly when it is a non-empty
    string of alphanumeric characters whose length is the expected one.  A
    string of the expected length 40 made of alphanumeric characters is
    accepted, one of length 39 or 41 is rejected, a string holding a
    character outside the alphabet is rejected whatever its length, [None]
    and the empty string are rejected, and a rejection is the value [False]
    or the false candidate itself: the function is total and has no other
    result. *)
Theorem is_valid_hash_boundary :
  (∀ v n, truthy (_is_valid_hash v n) = true ↔ accepted_by_spec v n)
  ∧ (∀ s, len s = 40 → all_chars char_isalnum s = true →
          _is_valid_hash (VStr s) 40 = VBool true)
  ∧ (∀ s, len s = 39 ∨ len s = 41 → _is_valid_hash (VStr s) 40 = VBool false)
  ∧ (∀ s1 c s2 n, char_isalnum c = false →
          truthy (_is_valid_hash (VStr (s1 +:+ String c s2)) n) = false)
  ∧ (∀ n, truthy (_is_valid_hash VNone n) = false
          ∧ truthy (_is_valid_hash (VStr "") n) = false)
  ∧ (∀ v n, ¬ accepted_by_spec v n →
          truthy (_is_valid_hash v n) = false
          ∧ (_is_valid_hash v n = VBool false ∨ _is_valid_hash v n = v)).
Proof.
  assert (Hiff : ∀ v n,
    truthy (_is_valid_hash v n) = true ↔ accepted_by_spec v n).
  { intros v n. rewrite valid_iff. unfold accepted_by_spec.
    split; intros (s & -> & H); exists s; rewrite isalnum_spec in *;
      tauto. }
  split; [exact Hiff|].
  split; [|split; [|split; [|split; [|intros v n Hrej; split]]]].
  - intros s Hlen Hs. unfold _is_valid_hash.
    assert (s ≠ "") as Hne by (intros ->; discriminate Hlen).
    apply truthy_str in Hne as ->. simpl. rewrite Hlen. simpl.
    destruct s; [done|]. by simpl in *; rewrite Hs.
  - intros s Hlen. unfold _is_valid_hash.
    assert (s ≠ "") as Hne by (intros ->; by destruct Hlen).
    apply truthy_str in Hne as ->. simpl.
    by destruct Hlen as [-> | ->].
  - intros s1 c s2 n Hc. apply not_true_is_false. rewrite valid_iff.
    intros (s & [= <-] & _ & Hs). apply isalnum_spec in Hs as [_ Hs].
    rewrite all_chars_app in Hs. simpl in Hs. rewrite Hc in Hs.
    by rewrite andb_false_r in Hs.
  - done.
  - apply not_true_is_false. by rewrite Hiff.
  - apply rejected_result, not_true_is_false. by rewrite Hiff.
Qed.

(** The boundary on a concrete candidate, ["a" * 40]. *)
Lemma is_valid_hash_boundary_witness :
  _is_valid_hash (VStr (repeat_char "a" 40)) 40 = VBool true
  ∧ _is_valid_hash (VStr (repeat_char "a" 39)) 40 = VBool false
  ∧ truthy (_is_valid_hash (VStr (repeat_char "a" 39 +:+ "-")) 40) = false
  ∧ truthy (_is_valid_hash (VInt 7) 40) = false.
Proof.
  destruct is_valid_hash_boundary as (_ & H40 & H39 & Hbad & _ & Hrej).
  split; [|split; [|split]].
  - apply H40; reflexivity.
  - apply H39. left. reflexivity.
  - apply (Hbad (repeat_char "a" 39) "-"%char "" 40). reflexivity.
  - apply Hrej. intros (s & Hs & _). discriminate Hs.
Defined.

(** ** BatchExtractor: the extracted set is the set of the valid strings *)

Section Extractor.

Lemma add_valid_eq n (X : gset string) v :
  add_valid n X v = X ∪ list_to_set (omap (valid_string n) [v]).
Proof.
  unfold add_valid. simpl. unfold valid_string.
  destruct v as [| | |s|]; simpl;
    first [destruct (truthy _); set_solver | set_solver].
Qed.

Lemma foldl_add_valid n vs (X : gset string) :
  foldl (add_valid n) X vs = X ∪ list_to_set (omap (valid_string n) vs).
Proof.
  revert X. induction vs as [|v vs IH]; intros X.
  - simpl. set_solver.
  - cbn [foldl]. rewrite IH, add_valid_eq. simpl.
    destruct (valid_string n v); set_solver.
Qed.

Lemma extract_field_eq name n e (X : gset string) :
  extract_field name n (default ∅ (simpleValues e)) X
  = X ∪ list_to_set (omap (valid_string n) (field_values name e)).
Proof.
  unfold extract_field, field_values.
  destruct (simpleValues e) as [sv|]; simpl.
  - destruct (sv !! name) as [[[[|v vs]|]]|]; simpl; [set_solver| |set_solver..].
    apply (foldl_add_valid n (v :: vs)).
  - rewrite lookup_empty. set_solver.
Qed.

Lemma extract_entity_eq (X : gset string) e :
  extract_entity X e = X ∪ list_to_set (entity_valid_strings e).
Proof.
  unfold extract_entity, entity_valid_strings. cbv zeta.
  rewrite !extract_field_eq, list_to_set_app_L. set_solver.
Qed.

Lemma foldl_extract_entity es (X : gset string) :
  foldl extract_entity X es
  = X ∪ list_to_set (concat (entity_valid_strings <$> es)).
Proof.
  revert X. induction es as [|e es IH]; intros X; simpl.
  - set_solver.
  - rewrite IH, extract_entity_eq, list_to_set_app_L. set_solver.
Qed.

Lemma extract_eq p :
  _extract_hashes_from_batch p = list_to_set (page_valid_strings p).
Proof.
  unfold _extract_hashes_from_batch, page_valid_strings.
  rewrite foldl_extract_entity. set_solver.
Qed.

Lemma extract_empty : _extract_hashes_from_batch ∅ = ∅.
Proof. unfold _extract_hashes_from_batch. by rewrite map_to_list_empty. Qed.

Lemma accumulate_snoc pages p :
  accumulate (pages ++ [p]) = accumulate pages ∪ _extract_hashes_from_batch p.
Proof. unfold accumulate. by rewrite foldl_snoc. Qed.

Lemma accumulate_eq pages :
  accumulate pages = list_to_set (concat (page_valid_strings <$> pages)).
Proof.
  induction pages as [|p pages IH] using rev_ind; [done|].
  rewrite accumulate_snoc, IH, extract_eq, fmap_app, concat_app.
  rewrite list_to_set_app_L. simpl. rewrite app_nil_r. done.
Qed.

Lemma size_list_to_set_dups (l : list string) :
  size (list_to_set (C:=gset string) l) = length (remove_dups l).
Proof.
  rewrite <- (size_list_to_set (C:=gset string) (remove_dups l))
    by apply NoDup_remove_dups.
  f_equal. apply set_eq. intros x.
  by rewrite !elem_of_list_to_set, elem_of_remove_dups.
Qed.

Lemma accumulate_size pages :
  size (accumulate pages) = distinct_valid_count pages.
Proof. rewrite accumulate_eq. apply size_list_to_set_dups. Qed.

Lemma accumulate_elem x pages :
  x ∈ accumulate pages ↔ ∃ p, p ∈ pages ∧ x ∈ page_valid_strings p.
Proof.
  rewrite accumulate_eq, elem_of_list_to_set, list_elem_of_In, in_concat.
  setoid_rewrite <- list_elem_of_In. setoid_rewrite list_elem_of_fmap.
  naive_solver.
Qed.

Lemma accumulate_perm pages1 pages2 :
  pages1 ≡ₚ pages2 → accumulate pages1 = accumulate pages2.
Proof.
  intros Hp. apply set_eq. intros x. rewrite !accumulate_elem.
  by setoid_rewrite Hp.
Qed.

End Extractor.

(** ** PrimaryCollector *)

Lemma loop_inv_initial limit st0 : loop_inv limit (initial_state st0).
Proof. split; [done|]. intros l _ Hl. exact Hl. Qed.

Lemma limit_hit_true limit X :
  limit_hit limit X = true ↔ ∃ l, limit = Some l ∧ l ≠ 0 ∧ l ≤ len_set X.
Proof.
  unfold limit_hit. destruct limit as [l|]; simpl.
  - rewrite andb_true_iff, negb_true_iff, Z.eqb_neq, Z.leb_le. naive_solver.
  - split; [done|]. by intros (? & ? & _).
Qed.

Lemma limit_hit_false limit X l :
  limit_hit limit X = false → limit = Some l → 0 < l → len_set X < l.
Proof.
  intros Hhit -> Hl. unfold limit_hit in Hhit. simpl in Hhit.
  apply andb_false_iff in Hhit as [Hz|Hle].
  - apply negb_false_iff, Z.eqb_eq in Hz. lia.
  - apply Z.leb_gt in Hle. lia.
Qed.

Section PrimaryLoop.

Variable set_iter : gset string → list string.

(** Destructs every test of one iteration. *)
Ltac step_cases :=
  unfold direct_step, on_page; cbv zeta;
  repeat match goal with
    | |- context [if ?b then _ else _] => destruct b eqn:?
    | |- context [match ?r with Response _ _ => _ | RequestException _ => _ end] =>
        destruct r eqn:?
    end;
  cbn [hashes skip st requests merged] in *.

(** A step that continues keeps the invariant and issues one request. *)
Lemma step_continue limit batch_limit post s s' :
  direct_step set_iter limit batch_limit post s = Continue s' →
  loop_inv limit s →
  loop_inv limit s' ∧ requests s' = S (requests s).
Proof.
  intros Hstep [Hacc Hlim]. revert Hstep.
  step_cases; intros [= <-]; unfold loop_inv;
    cbn [hashes skip st requests merged].
  - split; [|done]. split.
    + by rewrite accumulate_snoc, Hacc.
    + intros l. by apply limit_hit_false.
  - done.
Qed.

(** A step that stops: the returned set is the merged one, unless the
    target was hit, in which case it is the trimmed merged one. *)
Lemma step_break limit batch_limit post s why s' :
  direct_step set_iter limit batch_limit post s = Break why s' →
  loop_inv limit s →
  requests s' = S (requests s)
  ∧ (why ≠ LIMIT_REACHED → loop_inv limit s')
  ∧ (why = LIMIT_REACHED →
     ∃ l, limit = Some l ∧ l ≠ 0 ∧ l ≤ len_set (accumulate (merged s'))
          ∧ hashes s' = trim set_iter (accumulate (merged s')) l).
Proof.
  intros Hstep [Hacc Hlim]. revert Hstep.
  step_cases; intros [= <- <-]; unfold loop_inv;
    cbn [hashes skip st requests merged]; (split; [done|]);
    (split; [try done; intros _|try done; intros _]).
  - split; simpl; [by rewrite accumulate_snoc, Hacc|].
    intros l Hl Hpos. specialize (Hlim l Hl Hpos).
    match goal with H : (_ - _ =? 0) = true |- _ => apply Z.eqb_eq in H end.
    lia.
  - match goal with H : limit_hit _ _ = true |- _ =>
      apply limit_hit_true in H as (l & -> & Hl0 & Hle) end.
    exists l. rewrite accumulate_snoc, <- Hacc. done.
  - split; simpl; [by rewrite accumulate_snoc, Hacc|].
    intros l. by apply limit_hit_false.
  - split; simpl; [by rewrite accumulate_snoc, Hacc|].
    intros l. by apply limit_hit_false.
Qed.

(** The loop, by induction on the fuel. *)
Lemma loop_returned fuel limit batch_limit post s why s' :
  direct_loop set_iter fuel limit batch_limit post s = Returned why s' →
  loop_inv limit s →
  (why ≠ LIMIT_REACHED → loop_inv limit s')
  ∧ (why = LIMIT_REACHED →
     ∃ l, limit = Some l ∧ l ≠ 0 ∧ l ≤ len_set (accumulate (merged s'))
          ∧ hashes s' = trim set_iter (accumulate (merged s')) l).
Proof.
  revert s. induction fuel as [|fuel IH]; intros s; [done|].
  cbn [direct_loop].
  destruct (direct_step _ _ _ _ s) as [s1|why1 s1|] eqn:Hstep; [| |done].
  - intros Hloop Hinv. apply (IH s1 Hloop).
    by eapply step_continue.
  - intros [= <- <-] Hinv. by eapply step_break.
Qed.

(** Fuel beyond what a run needs changes nothing. *)
Lemma loop_fuel_mono fuel fuel' limit batch_limit post s :
  (fuel ≤ fuel')%nat →
  direct_loop set_iter fuel limit batch_limit post s ≠ OutOfFuel →
  direct_loop set_iter fuel' limit batch_limit post s
  = direct_loop set_iter fuel limit batch_limit post s.
Proof.
  revert fuel' s. induction fuel as [|fuel IH]; intros fuel' s Hle; [done|].
  destruct fuel' as [|fuel']; [lia|]. cbn [direct_loop].
  destruct (direct_step _ _ _ _ s); [|done..].
  apply IH. lia.
Qed.

(** A page that adds nothing ends the loop in that very iteration. *)
Lemma stagnant_step limit batch_limit post s file_hashes :
  batch_limit ≠ 0 →
  post (requests s) (page_size batch_limit (remaining limit (hashes s)))
       (skip s) = Response 200 file_hashes →
  file_hashes ≠ ∅ →
  _extract_hashes_from_batch file_hashes ⊆ hashes s →
  direct_step set_iter limit batch_limit post s
  = Break STAGNANT
      {| hashes := hashes s; skip := skip s; st := st s;
         requests := S (requests s);
         merged := merged s ++ [file_hashes] |}.
Proof.
  intros Hb Hpost Hne Hsub. unfold direct_step, on_page. cbv zeta.
  apply Z.eqb_neq in Hb. rewrite Hb, Hpost. cbn [hashes skip st requests merged].
  rewrite bool_decide_eq_false_2 by done.
  assert (hashes s ∪ _extract_hashes_from_batch file_hashes = hashes s)
    as -> by set_solver.
  by rewrite Z.sub_diag.
Qed.

(** What a continuing step on a page leaves in the state. *)
Lemma continue_on_page limit batch_limit post s s' code file_hashes :
  post (requests s) (page_size batch_limit (remaining limit (hashes s)))
       (skip s) = Response code file_hashes →
  direct_step set_iter limit batch_limit post s = Continue s' →
  hashes s' = hashes s ∪ _extract_hashes_from_batch file_hashes
  ∧ requests s' = S (requests s).
Proof.
  intros Hpost. unfold direct_step, on_page. cbv zeta. rewrite Hpost.
  repeat match goal with
    | |- context [if ?b then _ else _] => destruct b
    end; by intros [= <-].
Qed.

Section Trim.

Hypothesis set_iter_perm : ∀ X, set_iter X ≡ₚ elements X.

Lemma trim_subseteq X l : trim set_iter X l ⊆ X.
Proof.
  intros x. unfold trim, slice_to. rewrite elem_of_list_to_set.
  intros Hx. apply elem_of_elements. rewrite <- set_iter_perm.
  destruct (l <? 0); by eapply subseteq_take, Hx.
Qed.

Lemma trim_size X l :
  0 ≤ l → l ≤ len_set X → len_set (trim set_iter X l) = l.
Proof.
  intros Hl Hle. unfold trim, slice_to, len_set in *.
  assert ((l <? 0) = false) as -> by lia.
  assert (NoDup (set_iter X)) as Hnd.
  { rewrite set_iter_perm. apply NoDup_elements. }
  rewrite size_list_to_set
    by (eapply sublist_NoDup; [exact Hnd|apply sublist_take]).
  rewrite length_take, (Permutation_length (set_iter_perm X)).
  change (length (elements X)) with (size X). lia.
Qed.

End Trim.

End PrimaryLoop.

(** C1. Deduplication invariant.  When the primary loop returns, the set
    accumulated from the pages it merged has as many elements as there are
    distinct valid hash strings across those pages, whatever the order of the
    pages; the loop returns that very set unless it stopped on the target, in
    which case it returns a part of it.  A [gset] holds each string once, so
    no string is counted twice. *)
Theorem dedup_invariant (set_iter : gset string → list string)
    fuel limit batch_size post st0 why s :
  (∀ X, set_iter X ≡ₚ elements X) →
  _get_file_hashes_direct set_iter fuel limit batch_size post st0
    = Returned why s →
  size (accumulate (merged s)) = distinct_valid_count (merged s)
  ∧ (∀ x, x ∈ accumulate (merged s)
          ↔ ∃ p, p ∈ merged s ∧ x ∈ page_valid_strings p)
  ∧ (∀ pages, pages ≡ₚ merged s →
        accumulate pages = accumulate (merged s)
        ∧ size (accumulate pages) = distinct_valid_count (merged s))
  ∧ (why ≠ LIMIT_REACHED → hashes s = accumulate (merged s))
  ∧ hashes s ⊆ accumulate (merged s).
Proof.
  intros Hiter Hrun.
  apply loop_returned in Hrun as [Hother Hlimit];
    [|apply loop_inv_initial].
  split; [apply accumulate_size|]. split; [intros x; apply accumulate_elem|].
  split; [|split].
  - intros pages Hperm. rewrite (accumulate_perm _ _ Hperm).
    split; [done|apply accumulate_size].
  - intros Hwhy. by apply Hother.
  - destruct (decide (why = LIMIT_REACHED)) as [Hwhy|Hwhy].
    + destruct (Hlimit Hwhy) as (l & _ & _ & _ & ->). by apply trim_subseteq.
    + by rewrite (proj1 (Hother Hwhy)).
Qed.

(** A run over three pages with repeated hashes: three distinct valid
    strings are collected. *)
Lemma dedup_invariant_witness :
  _get_file_hashes_direct elements 5 None 1
    (Scenario.pages_in_turn
       [Scenario.page1; Scenario.page_mixed; Scenario.page2])
    Scenario.fresh = Returned STAGNANT Scenario.dedup_final
  ∧ size (hashes Scenario.dedup_final) = 3%nat
  ∧ size (accumulate (merged Scenario.dedup_final))
    = distinct_valid_count (merged Scenario.dedup_final)
  ∧ hashes Scenario.dedup_final = accumulate (merged Scenario.dedup_final).
Proof.
  assert (Hrun :
    _get_file_hashes_direct elements 5 None 1
      (Scenario.pages_in_turn
         [Scenario.page1; Scenario.page_mixed; Scenario.page2])
      Scenario.fresh = Returned STAGNANT Scenario.dedup_final)
    by (vm_compute; reflexivity).
  split; [exact Hrun|]. split; [vm_compute; reflexivity|].
  destruct (dedup_invariant elements 5 None 1 _ Scenario.fresh STAGNANT
              Scenario.dedup_final (λ X, reflexivity (elements X)) Hrun)
    as (Hsize & _ & _ & Heq & _).
  split; [exact Hsize|]. apply Heq. discriminate.
Defined.

(** C2. Stagnation termination.  Against a source that answers every
    request with the same non-empty page, the primary loop returns after at
    most two requests, and when it makes the second one it stops there as
    STAGNANT: the iteration that adds nothing is the last one.  With a zero
    batch size the run raises before its first request; it never runs out of
    fuel. *)
Theorem stagnation_termination (set_iter : gset string → list string)
    fuel limit batch_size (p : page) st0 :
  p ≠ ∅ →
  (2 ≤ fuel)%nat →
  (batch_size = 0 →
     _get_file_hashes_direct set_iter fuel limit batch_size
       (Scenario.repeating p) st0 = ZeroDivisionError)
  ∧ (batch_size ≠ 0 →
     ∃ why s,
       _get_file_hashes_direct set_iter fuel limit batch_size
         (Scenario.repeating p) st0 = Returned why s
       ∧ (requests s ≤ 2)%nat
       ∧ (requests s = 2%nat →
          why = STAGNANT
          ∧ hashes s = _extract_hashes_from_batch p
          ∧ merged s = [p; p])).
Proof.
  intros Hp Hfuel. destruct fuel as [|[|fuel]]; [lia..|]. clear Hfuel.
  unfold _get_file_hashes_direct. split.
  - intros ->. reflexivity.
  - intros Hb. cbn [direct_loop].
    destruct (direct_step _ _ _ _ (initial_state st0))
      as [s1|why1 s1|] eqn:Hstep1.
    + pose proof Hstep1 as Hinv.
      apply step_continue in Hinv as [[Hacc _] _]; [|apply loop_inv_initial].
      pose proof Hstep1 as Hstate.
      eapply continue_on_page in Hstate as [Hhashes Hreq]; [|reflexivity].
      assert (merged s1 = [p]) as Hmerged.
      { revert Hstep1. unfold direct_step, on_page. cbv zeta.
        unfold Scenario.repeating.
        repeat match goal with
          | |- context [if ?b then _ else _] => destruct b
          end; by intros [= <-]. }
      rewrite (stagnant_step set_iter limit batch_size _ s1 p Hb eq_refl Hp)
        by (rewrite Hhashes; set_solver).
      eexists _, _. split; [reflexivity|]. cbn [requests hashes merged].
      rewrite Hreq, Hhashes, Hmerged. cbn [initial_state hashes requests].
      split; [lia|]. intros _. split; [done|]. split; [set_solver|done].
    + exists why1, s1. split; [done|].
      apply step_break in Hstep1 as [Hreq _]; [|apply loop_inv_initial].
      rewrite Hreq. cbn. split; [lia|]. intros [=].
    + revert Hstep1. unfold direct_step. cbv zeta.
      apply Z.eqb_neq in Hb. rewrite Hb. unfold Scenario.repeating, on_page.
      cbv zeta.
      repeat match goal with
        | |- context [if ?b then _ else _] => destruct b
        end; done.
Qed.

(** The repeating source of [Scenario.page1] with batch size 1: the second
    request is the last. *)
Lemma stagnation_termination_witness :
  ∃ why s,
    _get_file_hashes_direct elements 7 None 1
      (Scenario.repeating Scenario.page1) Scenario.fresh = Returned why s
    ∧ (requests s ≤ 2)%nat
    ∧ (requests s = 2%nat →
       why = STAGNANT
       ∧ hashes s = _extract_hashes_from_batch Scenario.page1
       ∧ merged s = [Scenario.page1; Scenario.page1]).
Proof.
  apply (stagnation_termination elements 7 None 1 Scenario.page1 Scenario.fresh).
  - intros Hempty. apply (f_equal (λ m : page, m !! "A")) in Hempty.
    vm_compute in Hempty. discriminate Hempty.
  - lia.
  - lia.
Defined.

(** The iteration in which the merged set reaches a positive target stops
    the loop on the trimmed set. *)
Lemma limit_step (set_iter : gset string → list string)
    target batch_limit post s file_hashes :
  0 < target →
  loop_inv (Some target) s →
  batch_limit ≠ 0 →
  post (requests s)
       (page_size batch_limit (remaining (Some target) (hashes s)))
       (skip s) = Response 200 file_hashes →
  file_hashes ≠ ∅ →
  target ≤ len_set (hashes s ∪ _extract_hashes_from_batch file_hashes) →
  direct_step set_iter (Some target) batch_limit post s
  = Break LIMIT_REACHED
      {| hashes := trim set_iter
                     (hashes s ∪ _extract_hashes_from_batch file_hashes)
                     target;
         skip := skip s; st := st s; requests := S (requests s);
         merged := merged s ++ [file_hashes] |}.
Proof.
  intros Hpos [_ Hlt] Hb Hpost Hne Hreach.
  specialize (Hlt target eq_refl Hpos).
  unfold direct_step, on_page. cbv zeta.
  apply Z.eqb_neq in Hb. rewrite Hb, Hpost.
  cbn [hashes skip st requests merged].
  rewrite bool_decide_eq_false_2 by done.
  destruct (_ - _ =? 0) eqn:Hnew; [apply Z.eqb_eq in Hnew; lia|].
  assert (limit_hit (Some target)
            (hashes s ∪ _extract_hashes_from_batch file_hashes) = true) as ->.
  { apply limit_hit_true. exists target. split; [done|]. split; [lia|done]. }
  reflexivity.
Qed.

(** C3. Limit trimming.  With a positive target, a run of the primary loop
    stops as LIMIT_REACHED exactly when the set accumulated from the merged
    pages has reached the target; the returned set then has exactly [target]
    elements, all of them taken from the accumulated set, whatever the order
    in which the set is enumerated.  In every iteration in which the merged
    set reaches the target the loop stops in this way. *)
Theorem limit_trimming (set_iter : gset string → list string)
    fuel target batch_size post st0 why s :
  (∀ X, set_iter X ≡ₚ elements X) →
  0 < target →
  _get_file_hashes_direct set_iter fuel (Some target) batch_size post st0
    = Returned why s →
  (target ≤ len_set (accumulate (merged s)) ↔ why = LIMIT_REACHED)
  ∧ (why = LIMIT_REACHED →
     len_set (hashes s) = target ∧ hashes s ⊆ accumulate (merged s))
  ∧ (why ≠ LIMIT_REACHED → hashes s = accumulate (merged s))
  ∧ (∀ s1 file_hashes,
       loop_inv (Some target) s1 →
       batch_size ≠ 0 →
       post (requests s1)
            (page_size batch_size (remaining (Some target) (hashes s1)))
            (skip s1) = Response 200 file_hashes →
       file_hashes ≠ ∅ →
       target ≤ len_set (hashes s1 ∪ _extract_hashes_from_batch file_hashes) →
       ∃ s2,
         direct_step set_iter (Some target) batch_size post s1
           = Break LIMIT_REACHED s2
         ∧ len_set (hashes s2) = target
         ∧ hashes s2 ⊆ hashes s1 ∪ _extract_hashes_from_batch file_hashes).
Proof.
  intros Hiter Hpos Hrun.
  apply loop_returned in Hrun as [Hother Hlimit]; [|apply loop_inv_initial].
  split; [|split; [|split]].
  - split.
    + intros Hreach. destruct (decide (why = LIMIT_REACHED)) as [|Hwhy]; [done|].
      destruct (Hother Hwhy) as [Hacc Hlt]. rewrite <- Hacc in Hreach.
      specialize (Hlt target eq_refl Hpos). lia.
    + intros Hwhy. by destruct (Hlimit Hwhy) as (l & [= <-] & _ & Hle & _).
  - intros Hwhy. destruct (Hlimit Hwhy) as (l & [= <-] & _ & Hle & ->).
    split; [apply trim_size; [done|lia|done]|by apply trim_subseteq].
  - intros Hwhy. by apply Hother.
  - intros s1 file_hashes Hinv Hb Hpost Hne Hreach. eexists. split.
    + by apply limit_step.
    + cbn [hashes]. split; [apply trim_size; [done|lia|done]|].
      by apply trim_subseteq.
Qed.

(** Target 10 against a page that yields 15 unique hashes: exactly 10 are
    returned, all among the 15. *)
Lemma limit_trimming_witness :
  let run := _get_file_hashes_direct elements 3 (Some 10) 1000
               (Scenario.pages_in_turn [Scenario.page_of 15]) Scenario.fresh in
  run = Returned LIMIT_REACHED (Scenario.final_state run)
  ∧ size (accumulate (merged (Scenario.final_state run))) = 15%nat
  ∧ len_set (hashes (Scenario.final_state run)) = 10
  ∧ hashes (Scenario.final_state run)
    ⊆ accumulate (merged (Scenario.final_state run)).
Proof.
  intros run.
  assert (Hrun : run = Returned LIMIT_REACHED (Scenario.final_state run))
    by (vm_compute; reflexivity).
  split; [exact Hrun|]. split; [vm_compute; reflexivity|].
  destruct (limit_trimming elements 3 10 1000 _ Scenario.fresh LIMIT_REACHED
              (Scenario.final_state run) (λ X, reflexivity (elements X))
              eq_refl Hrun) as (_ & Htrim & _).
  apply Htrim. reflexivity.
Defined.

(** ** The end-to-end scenario *)

Section EndToEnd.

Variable set_iter : gset string → list string.

(** Only an empty result map ends the loop as PAGE_EMPTY. *)
Lemma break_page_empty limit batch_limit post s s' :
  direct_step set_iter limit batch_limit post s = Break PAGE_EMPTY s' →
  ∃ code,
    post (requests s) (page_size batch_limit (remaining limit (hashes s)))
         (skip s) = Response code ∅.
Proof.
  unfold direct_step, on_page. cbv zeta.
  destruct (batch_limit =? 0); [done|].
  destruct (post _ _ _) as [code file_hashes|str_e].
  - destruct (code =? 200); [|done].
    destruct (bool_decide (file_hashes = ∅)) eqn:Hempty.
    + apply bool_decide_eq_true in Hempty as ->. by exists code.
    + repeat match goal with
        | |- context [if ?b then _ else _] => destruct b
        end; done.
  - by destruct (is_connection_error str_e).
Qed.

(** A step raises only when the batch size is zero. *)
Lemma step_raise limit batch_limit post s :
  direct_step set_iter limit batch_limit post s = Raise → batch_limit = 0.
Proof.
  unfold direct_step, on_page. cbv zeta.
  destruct (Z.eqb_spec batch_limit 0); [done|].
  repeat match goal with
    | |- context [if ?b then _ else _] => destruct b
    | |- context [match ?r with Response _ _ => _ | RequestException _ => _ end] =>
        destruct r
    end; done.
Qed.

Lemma continue_nonzero limit batch_limit post s s' :
  direct_step set_iter limit batch_limit post s = Continue s' →
  batch_limit ≠ 0.
Proof.
  unfold direct_step. cbv zeta.
  by destruct (Z.eqb_spec batch_limit 0).
Qed.

(** The page size of the first request when no target or a target of at
    least two is set. *)
Lemma first_page_size limit batch_limit :
  (limit = None ∨ ∃ l, limit = Some l ∧ 2 ≤ l) →
  (2 ≤ batch_limit → 2 ≤ page_size batch_limit (remaining limit ∅))
  ∧ (batch_limit < 2 → page_size batch_limit (remaining limit ∅) = batch_limit).
Proof.
  unfold page_size, remaining, len_set. rewrite size_empty.
  intros [->|(l & -> & Hl)]; [done|]. cbn [truthy_opt].
  assert ((l =? 0) = false) as -> by lia. cbn [negb truthy_opt].
  replace (l - Z.of_nat 0) with l by lia.
  assert ((l =? 0) = false) as -> by lia. cbn [negb]. lia.
Qed.

(** The first iteration on a page of one entity that holds one hash. *)
Lemma first_page_step limit batch_limit (post : source) (p : page) h st0 :
  batch_limit ≠ 0 →
  p ≠ ∅ →
  _extract_hashes_from_batch p = {[ h ]} →
  size p = 1%nat →
  post 0%nat (page_size batch_limit (remaining limit ∅)) 0 = Response 200 p →
  (limit = None ∨ ∃ l, limit = Some l ∧ 2 ≤ l) →
  batches_processed st0 + 1 < max_batches →
  direct_step set_iter limit batch_limit post (initial_state st0)
  = if decide (2 ≤ batch_limit) then
      Break SHORT_PAGE
        {| hashes := {[ h ]}; skip := 0; st := st0; requests := 1;
           merged := [p] |}
    else
      Continue
        {| hashes := {[ h ]};
           skip := batch_limit;
           st := count_batch st0; requests := 1; merged := [p] |}.
Proof.
  intros Hb Hp Hext Hsize Hpost Hlimit Hcap.
  destruct (first_page_size limit batch_limit Hlimit) as [Hbig Hsmall].
  unfold direct_step, on_page. cbv zeta.
  apply Z.eqb_neq in Hb. rewrite Hb.
  cbn [initial_state hashes skip st requests merged]. rewrite Hpost.
  cbn [Z.eqb Pos.eqb]. rewrite bool_decide_eq_false_2 by done.
  rewrite Hext, (left_id_L ∅ (∪)). unfold len_set at 1 2.
  rewrite size_singleton, size_empty.
  change (Z.of_nat 1) with 1. change (Z.of_nat 0) with 0.
  change (1 - 0 =? 0) with false. cbv iota. cbn [app]. rewrite Z.add_0_l.
  assert (limit_hit limit {[ h ]} = false) as ->.
  { unfold limit_hit, len_set. rewrite size_singleton.
    destruct Hlimit as [->|(l & -> & Hl)]; [done|].
    apply andb_false_iff. right. apply Z.leb_gt. lia. }
  unfold len_page. rewrite Hsize. change (Z.of_nat 1) with 1.
  destruct (decide (2 ≤ batch_limit)) as [Hge|Hlt].
  - specialize (Hbig Hge).
    destruct (Z.ltb_spec 1 (page_size batch_limit (remaining limit ∅)));
      [done|lia].
  - rewrite Hsmall by lia.
    destruct (Z.ltb_spec 1 batch_limit); [lia|].
    destruct (Z.leb_spec max_batches (batches_processed (count_batch st0)))
      as [Hmax|_]; [|done].
    unfold count_batch in Hmax. cbn [batches_processed] in Hmax. lia.
Qed.

End EndToEnd.

Lemma scenario_pages :
  Scenario.page1 ≠ ∅
  ∧ Scenario.page2 ≠ ∅
  ∧ size Scenario.page1 = 1%nat
  ∧ _extract_hashes_from_batch Scenario.page1 = {[ Scenario.a40 ]}
  ∧ _extract_hashes_from_batch Scenario.page2 = {[ Scenario.a40 ]}.
Proof.
  split; [apply map_non_empty_singleton|].
  split; [apply map_non_empty_singleton|].
  split; [apply map_size_singleton|].
  split; vm_compute; reflexivity.
Qed.

(** C4, as stated, fails.  On the source that serves page1, page2 and then
    an empty page, no batch size, target, fuel or enumeration order makes the
    primary loop stop as PAGE_EMPTY: the second page adds nothing, so the
    loop stops there at the latest and the empty page is never requested. *)
Lemma end_to_end_counterexample :
  ¬ ∃ (set_iter : gset string → list string) fuel limit batch_size s,
      _get_file_hashes_direct set_iter fuel limit batch_size
        (Scenario.pages_in_turn [Scenario.page1; Scenario.page2; ∅])
        Scenario.fresh = Returned PAGE_EMPTY s
      ∧ hashes s = {[ Scenario.a40 ]}
      ∧ batches_processed (st s) = 2.
Proof.
  destruct scenario_pages as (Hp1 & Hp2 & _ & Hext1 & Hext2).
  intros (set_iter & fuel & limit & batch_size & s & Hrun & _).
  unfold _get_file_hashes_direct in Hrun.
  destruct fuel as [|fuel]; [done|]. cbn [direct_loop] in Hrun.
  destruct (direct_step _ _ _ _ (initial_state _)) as [s1|why1 s1|] eqn:Hstep1;
    [| |done].
  - pose proof (continue_nonzero _ _ _ _ _ _ Hstep1) as Hb.
    apply (continue_on_page set_iter limit batch_size
             (Scenario.pages_in_turn [Scenario.page1; Scenario.page2; ∅])
             (initial_state Scenario.fresh) s1 200 Scenario.page1 eq_refl)
      in Hstep1 as [Hhashes Hreq].
    destruct fuel as [|fuel]; [done|]. cbn [direct_loop] in Hrun.
    rewrite (stagnant_step set_iter limit batch_size _ s1 Scenario.page2)
      in Hrun; [done|done|by rewrite Hreq|done|].
    rewrite Hhashes, Hext1, Hext2. set_solver.
  - injection Hrun as -> ->.
    apply break_page_empty in Hstep1 as [code Hpost].
    injection Hpost as _ Hempty. done.
Qed.

(** C4, amended.  On that source, with a fresh collector, a non-zero batch
    size and no target (or a target of at least two), the primary loop
    returns the set that holds ["a" * 40] alone and never stops as
    PAGE_EMPTY.  With a batch size of at most one it stops on page2 as
    STAGNANT, having processed one batch in two requests; with a batch size of
    two or more it stops on page1 as SHORT_PAGE, having processed no batch in
    one request. *)
Theorem end_to_end_scenario (set_iter : gset string → list string)
    fuel limit batch_size :
  (2 ≤ fuel)%nat →
  batch_size ≠ 0 →
  (limit = None ∨ ∃ l, limit = Some l ∧ 2 ≤ l) →
  ∃ why s,
    _get_file_hashes_direct set_iter fuel limit batch_size
      (Scenario.pages_in_turn [Scenario.page1; Scenario.page2; ∅])
      Scenario.fresh = Returned why s
    ∧ hashes s = {[ Scenario.a40 ]}
    ∧ why ≠ PAGE_EMPTY
    ∧ ((batch_size ≤ 1 ∧ why = STAGNANT ∧ batches_processed (st s) = 1
        ∧ requests s = 2%nat
        ∧ merged s = [Scenario.page1; Scenario.page2])
       ∨ (2 ≤ batch_size ∧ why = SHORT_PAGE ∧ batches_processed (st s) = 0
          ∧ requests s = 1%nat
          ∧ merged s = [Scenario.page1])).
Proof.
  destruct scenario_pages as (Hp1 & Hp2 & Hsize1 & Hext1 & Hext2).
  intros Hfuel Hb Hlimit. destruct fuel as [|[|fuel]]; [lia..|]. clear Hfuel.
  unfold _get_file_hashes_direct. cbn [direct_loop].
  rewrite (first_page_step set_iter limit batch_size _ Scenario.page1
             Scenario.a40 Scenario.fresh Hb Hp1 Hext1 Hsize1 eq_refl Hlimit)
    by done.
  destruct (decide (2 ≤ batch_size)) as [Hge|Hlt].
  - eexists _, _. split; [reflexivity|]. cbn [hashes st requests merged].
    split; [done|]. split; [done|]. right. done.
  - cbn [direct_loop].
    rewrite (stagnant_step set_iter limit batch_size
               (Scenario.pages_in_turn [Scenario.page1; Scenario.page2; ∅])
               {| hashes := {[ Scenario.a40 ]}; skip := batch_size;
                  st := count_batch Scenario.fresh; requests := 1;
                  merged := [Scenario.page1] |}
               Scenario.page2 Hb eq_refl Hp2)
      by (cbn [hashes]; rewrite Hext2; set_solver).
    eexists _, _. split; [reflexivity|]. cbn [hashes st requests merged].
    split; [done|]. split; [done|]. left.
    split; [lia|]. done.
Qed.

(** The scenario with batch size 1 and with batch size 1000. *)
Lemma end_to_end_scenario_witness :
  (∃ why s,
     _get_file_hashes_direct elements 5 None 1
       (Scenario.pages_in_turn [Scenario.page1; Scenario.page2; ∅])
       Scenario.fresh = Returned why s
     ∧ hashes s = {[ Scenario.a40 ]}
     ∧ why ≠ PAGE_EMPTY
     ∧ ((1 ≤ 1 ∧ why = STAGNANT ∧ batches_processed (st s) = 1
         ∧ requests s = 2%nat
         ∧ merged s = [Scenario.page1; Scenario.page2])
        ∨ (2 ≤ 1 ∧ why = SHORT_PAGE ∧ batches_processed (st s) = 0
           ∧ requests s = 1%nat
           ∧ merged s = [Scenario.page1]))).
Proof.
  apply (end_to_end_scenario elements 5 None 1).
  - lia.
  - lia.
  - left. reflexivity.
Defined.

(** C5. Transient-error forward skip.  In an iteration whose request
    raises, the error counter goes up by one.  When the message holds
    "Connection broken" or "IncompleteRead", [skip] advances by the configured
    batch size, the batch counter goes up by one, the accumulated set is
    untouched and the loop goes on with the next request, so the run is not
    ended by it.  Any other exception, and any status other than 200, ends
    the loop with the accumulated set unchanged. *)
Theorem transient_error_skip (set_iter : gset string → list string)
    limit batch_limit (post : source) s :
  batch_limit ≠ 0 →
  (∀ str_e,
     post (requests s) (page_size batch_limit (remaining limit (hashes s)))
          (skip s) = RequestException str_e →
     let s_skip :=
       {| hashes := hashes s; skip := skip s + batch_limit;
          st := {| batches_processed := batches_processed (st s) + 1;
                   errors := errors (st s) + 1 |};
          requests := S (requests s); merged := merged s |} in
     let s_stop :=
       {| hashes := hashes s; skip := skip s;
          st := {| batches_processed := batches_processed (st s);
                   errors := errors (st s) + 1 |};
          requests := S (requests s); merged := merged s |} in
     (is_connection_error str_e = true →
        direct_step set_iter limit batch_limit post s = Continue s_skip
        ∧ ∀ fuel,
            direct_loop set_iter (S fuel) limit batch_limit post s
            = direct_loop set_iter fuel limit batch_limit post s_skip)
     ∧ (is_connection_error str_e = false →
        direct_step set_iter limit batch_limit post s
          = Break REQUEST_FAILED s_stop
        ∧ ∀ fuel,
            direct_loop set_iter (S fuel) limit batch_limit post s
            = Returned REQUEST_FAILED s_stop))
  ∧ (∀ status_code file_hashes,
       post (requests s) (page_size batch_limit (remaining limit (hashes s)))
            (skip s) = Response status_code file_hashes →
       status_code ≠ 200 →
       ∀ fuel,
         direct_loop set_iter (S fuel) limit batch_limit post s
         = Returned BAD_STATUS
             {| hashes := hashes s; skip := skip s;
                st := {| batches_processed := batches_processed (st s);
                         errors := errors (st s) + 1 |};
                requests := S (requests s); merged := merged s |})
  ∧ (∀ str_e,
       is_connection_error str_e = true
       ↔ (∃ a b, str_e = a +:+ "Connection broken" +:+ b)
         ∨ (∃ a b, str_e = a +:+ "IncompleteRead" +:+ b)).
Proof.
  intros Hb. apply Z.eqb_neq in Hb. split; [|split].
  - intros str_e Hpost s_skip s_stop.
    assert (Hstep : direct_step set_iter limit batch_limit post s
                    = if is_connection_error str_e then Continue s_skip
                      else Break REQUEST_FAILED s_stop).
    { unfold direct_step. cbv zeta. rewrite Hb, Hpost. reflexivity. }
    split; intros Herr; rewrite Herr in Hstep; (split; [exact Hstep|]);
      intros fuel; cbn [direct_loop]; by rewrite Hstep.
  - intros status_code file_hashes Hpost Hcode fuel. cbn [direct_loop].
    unfold direct_step. cbv zeta. rewrite Hb, Hpost.
    apply Z.eqb_neq in Hcode. rewrite Hcode. reflexivity.
  - intros str_e. unfold is_connection_error.
    by rewrite orb_true_iff, !str_in_spec.
Qed.

(** A connection that breaks on the first request: the page at [skip = 0]
    is given up, the second request asks for [skip = 1000]. *)
Lemma transient_error_skip_witness :
  let post : source :=
    λ n _ skip,
      match n with
      | O => RequestException
               "Connection broken: IncompleteRead(0 bytes read)"
      | _ => Response 200 ∅
      end in
  direct_step elements None 1000 post (initial_state Scenario.fresh)
  = Continue
      {| hashes := ∅; skip := 1000;
         st := {| batches_processed := 1; errors := 1 |};
         requests := 1; merged := [] |}
  ∧ _get_file_hashes_direct elements 2 None 1000 post Scenario.fresh
    = Returned PAGE_EMPTY
        {| hashes := ∅; skip := 1000;
           st := {| batches_processed := 1; errors := 1 |};
           requests := 1 + 1; merged := [] |}.
Proof.
  intros post.
  destruct (transient_error_skip elements None 1000 post
              (initial_state Scenario.fresh)) as [Hexc _]; [lia|].
  destruct (Hexc "Connection broken: IncompleteRead(0 bytes read)" eq_refl)
    as [[Hstep Hloop] _]; [reflexivity|].
  split; [exact Hstep|].
  unfold _get_file_hashes_direct. rewrite Hloop. reflexivity.
Defined.

(** ** Many distinct hashes *)

Section ManyHashes.

Import Scenario.

Lemma digit_isalnum d : (d < 10)%nat → char_isalnum (digit d) = true.
Proof.
  intros Hd. do 10 (destruct d as [|d]; [reflexivity|]). lia.
Qed.

Lemma digit_inj d1 d2 :
  (d1 < 10)%nat → (d2 < 10)%nat → digit d1 = digit d2 → d1 = d2.
Proof.
  unfold digit. intros H1 H2 Heq. apply (f_equal nat_of_ascii) in Heq.
  rewrite !nat_ascii_embedding in Heq by lia. lia.
Qed.

Lemma nth_hash_valid n :
  (n < 1000)%nat →
  valid_string 40 (VStr (nth_hash n)) = Some (nth_hash n).
Proof.
  intros Hn. apply valid_string_Some. split; [done|].
  apply valid_iff. exists (nth_hash n). split; [done|]. split.
  - reflexivity.
  - unfold nth_hash. cbn [isalnum all_chars].
    rewrite !digit_isalnum, all_chars_repeat_char; [done..| | |].
    + apply Nat.mod_upper_bound. lia.
    + apply Nat.mod_upper_bound. lia.
    + apply Nat.Div0.div_lt_upper_bound. lia.
Qed.

Lemma nth_hash_inj n m :
  (n < 1000)%nat → (m < 1000)%nat → nth_hash n = nth_hash m → n = m.
Proof.
  intros Hn Hm Heq.
  assert (H2 : digit (n / 100) = digit (m / 100))
    by (injection Heq; intros; assumption).
  assert (H1 : digit (n / 10 mod 10) = digit (m / 10 mod 10))
    by (injection Heq; intros; assumption).
  assert (H0 : digit (n mod 10) = digit (m mod 10))
    by (injection Heq; intros; assumption).
  clear Heq.
  apply digit_inj in H2; [|apply Nat.Div0.div_lt_upper_bound; lia..].
  apply digit_inj in H1; [|apply Nat.mod_upper_bound; lia..].
  apply digit_inj in H0; [|apply Nat.mod_upper_bound; lia..].
  rewrite (Nat.div_mod_eq n 10), (Nat.div_mod_eq m 10), H0. f_equal. f_equal.
  rewrite (Nat.div_mod_eq (n / 10) 10), (Nat.div_mod_eq (m / 10) 10), H1.
  f_equal. f_equal. rewrite !Nat.Div0.div_div. exact H2.
Qed.

Lemma hashes_upto_NoDup n : (n ≤ 1000)%nat → NoDup (hashes_upto n).
Proof.
  intros Hn. unfold hashes_upto. apply NoDup_fmap_2_strong; [|apply NoDup_seq].
  intros i j Hi%elem_of_seq Hj%elem_of_seq. apply nth_hash_inj; lia.
Qed.

Lemma hashes_upto_valid n :
  (n ≤ 1000)%nat →
  omap (valid_string 40) (VStr <$> hashes_upto n) = hashes_upto n.
Proof.
  intros Hn. unfold hashes_upto.
  assert (Forall (λ i, (i < 1000)%nat) (seq 0 n)) as Hall.
  { apply Forall_forall. intros i Hi%elem_of_seq. lia. }
  induction Hall as [|i l Hi _ IH]; [done|].
  cbn [fmap list_fmap omap list_omap]. rewrite nth_hash_valid by done.
  f_equal. exact IH.
Qed.

(** The page of one entity with [n] hashes yields exactly [n] hashes. *)
Lemma page_many_extract n :
  (n ≤ 1000)%nat →
  _extract_hashes_from_batch (page_many n) = list_to_set (hashes_upto n)
  ∧ size (_extract_hashes_from_batch (page_many n)) = n.
Proof.
  intros Hn.
  assert (_extract_hashes_from_batch (page_many n)
          = list_to_set (hashes_upto n)) as Hext.
  { rewrite extract_eq. f_equal. unfold page_valid_strings, page_many.
    rewrite map_to_list_singleton. cbn [fmap list_fmap snd concat].
    rewrite app_nil_r. unfold entity_valid_strings, field_values, sha1_only.
    cbn [simpleValues]. rewrite lookup_singleton_eq.
    rewrite lookup_singleton_ne by done.
    cbn [values default omap list_omap]. rewrite app_nil_r.
    by apply hashes_upto_valid. }
  split; [exact Hext|]. rewrite Hext, size_list_to_set.
  - unfold hashes_upto. by rewrite length_fmap, length_seq.
  - by apply hashes_upto_NoDup.
Qed.

End ManyHashes.

(** ** CollectionOrchestrator *)

Section Orchestrator.

Variable set_iter : gset string → list string.

(** The orchestrator after a primary pass that returned. *)
Lemma collect_after_primary fuel max_hashes batch_size post post_malops st0
    why s :
  _get_file_hashes_direct set_iter fuel max_hashes batch_size post st0
    = Returned why s →
  _collect_hashes_efficiently set_iter fuel max_hashes batch_size post
    post_malops st0
  = Some
      (if malops_needed max_hashes (hashes s) then
         {| all_hashes :=
              hashes s
              ∪ (_get_file_hashes_from_malops post_malops
                   (remaining max_hashes (hashes s)) (st s)).1;
            stats_after :=
              (_get_file_hashes_from_malops post_malops
                 (remaining max_hashes (hashes s)) (st s)).2;
            malop_request :=
              Some (malop_result_limit (remaining max_hashes (hashes s)));
            primary_reason := why; primary_state := s |}
       else
         {| all_hashes := hashes s; stats_after := st s;
            malop_request := None;
            primary_reason := why; primary_state := s |}).
Proof.
  intros Hrun. unfold _collect_hashes_efficiently, malops_needed.
  rewrite Hrun. cbv zeta. rewrite (left_id_L ∅ (∪)).
  destruct (wants_more max_hashes (hashes s)); [|done].
  destruct (len_set (hashes s) <? 1000); [|done]. cbn [andb].
  by destruct (_get_file_hashes_from_malops _ _ _).
Qed.

Lemma collect_primary fuel max_hashes batch_size post post_malops st0 c :
  _collect_hashes_efficiently set_iter fuel max_hashes batch_size post
    post_malops st0 = Some c →
  _get_file_hashes_direct set_iter fuel max_hashes batch_size post st0
  = Returned (primary_reason c) (primary_state c).
Proof.
  destruct (_get_file_hashes_direct set_iter fuel max_hashes batch_size
              post st0) as [why s| |] eqn:Hrun.
  - rewrite (collect_after_primary _ _ _ _ post_malops _ _ _ Hrun).
    intros [= <-]. by destruct (malops_needed _ _).
  - unfold _collect_hashes_efficiently. by rewrite Hrun.
  - unfold _collect_hashes_efficiently. by rewrite Hrun.
Qed.

Lemma malops_needed_true max_hashes X :
  malops_needed max_hashes X = true
  ↔ len_set X < 1000 ∧ ∀ m, max_hashes = Some m → len_set X < m.
Proof.
  unfold malops_needed, wants_more.
  rewrite andb_true_iff, Z.ltb_lt. destruct max_hashes as [m|].
  - rewrite Z.ltb_lt. split.
    + intros [? ?]. split; [done|]. by intros ? [= <-].
    + intros [? Hm]. split; [by apply Hm|done].
  - split; [|by intros [? _]]. intros [_ ?]. by split.
Qed.

(** A first page shorter than the batch size, with no target: the loop
    returns what the page holds. *)
Lemma short_page_step batch_limit (post : source) (p : page) st0 :
  batch_limit ≠ 0 →
  p ≠ ∅ →
  _extract_hashes_from_batch p ≠ ∅ →
  len_page p < batch_limit →
  post 0%nat batch_limit 0 = Response 200 p →
  direct_step set_iter None batch_limit post (initial_state st0)
  = Break SHORT_PAGE
      {| hashes := _extract_hashes_from_batch p; skip := 0; st := st0;
         requests := 1; merged := [p] |}.
Proof.
  intros Hb Hp Hext Hshort Hpost. unfold direct_step, on_page. cbv zeta.
  apply Z.eqb_neq in Hb. rewrite Hb.
  cbn [initial_state hashes skip st requests merged remaining page_size].
  rewrite Hpost. cbn [Z.eqb Pos.eqb limit_hit app].
  rewrite bool_decide_eq_false_2 by done. rewrite (left_id_L ∅ (∪)).
  unfold len_set at 1 2. rewrite size_empty.
  assert (size (_extract_hashes_from_batch p) ≠ 0%nat) as Hsize.
  { intros Hz. apply size_empty_inv in Hz. by apply leibniz_equiv in Hz. }
  destruct (Z.eqb_spec (Z.of_nat (size (_extract_hashes_from_batch p))
                        - Z.of_nat 0) 0); [lia|].
  by destruct (Z.ltb_spec (len_page p) batch_limit); [|lia].
Qed.

End Orchestrator.

(** With no target, a first page shorter than the batch size that yields
    fewer than 1000 hashes sends the orchestrator to the Malop source. *)
Lemma sparse_primary_queries_malops (set_iter : gset string → list string)
    batch_size (p : page) post_malops st0 :
  batch_size ≠ 0 →
  p ≠ ∅ →
  len_page p < batch_size →
  (0 < size (_extract_hashes_from_batch p) < 1000)%nat →
  ∃ c,
    _collect_hashes_efficiently set_iter 1 None batch_size
      (Scenario.repeating p) post_malops st0 = Some c
    ∧ is_Some (malop_request c)
    ∧ hashes (primary_state c) = _extract_hashes_from_batch p.
Proof.
  intros Hb Hp Hshort Hsize.
  assert (Hrun :
    _get_file_hashes_direct set_iter 1 None batch_size (Scenario.repeating p)
      st0
    = Returned SHORT_PAGE
        {| hashes := _extract_hashes_from_batch p; skip := 0; st := st0;
           requests := 1; merged := [p] |}).
  { unfold _get_file_hashes_direct. cbn [direct_loop].
    rewrite (short_page_step set_iter batch_size (Scenario.repeating p) p st0
               Hb Hp); [reflexivity| |exact Hshort|reflexivity].
    intros Hempty. rewrite Hempty, size_empty in Hsize. lia. }
  rewrite (collect_after_primary set_iter _ _ _ _ post_malops _ _ _ Hrun).
  cbn [hashes st].
  assert (malops_needed None (_extract_hashes_from_batch p) = true) as ->.
  { apply malops_needed_true. unfold len_set. split; [lia|].
    intros m Hm. discriminate Hm. }
  eexists. split; [reflexivity|]. cbn [malop_request primary_state hashes].
  split; [|reflexivity]. eexists. reflexivity.
Qed.

(** C6, as stated, fails: the threshold is not in the low hundreds.  No
    bound below 1000 separates the runs that query the Malop source from
    those that do not: with no target and a primary pass that yields 999
    unique hashes, the Malop source is queried. *)
Lemma malops_sparsity_counterexample :
  ¬ ∃ T : Z,
      T < 1000
      ∧ ∀ (set_iter : gset string → list string) fuel max_hashes batch_size
          post post_malops st0 c,
          _collect_hashes_efficiently set_iter fuel max_hashes batch_size
            post post_malops st0 = Some c →
          is_Some (malop_request c) →
          len_set (hashes (primary_state c)) < T.
Proof.
  intros (T & HT & Hpolicy).
  destruct (page_many_extract 999) as [_ Hsize]; [lia|].
  destruct (sparse_primary_queries_malops elements 1000
              (Scenario.page_many 999) Scenario.malops_two Scenario.fresh)
    as (c & Hcollect & Hquery & Hprimary).
  - lia.
  - apply map_non_empty_singleton.
  - unfold len_page, Scenario.page_many. rewrite map_size_singleton. lia.
  - rewrite Hsize. lia.
  - apply Hpolicy in Hcollect; [|exact Hquery].
    rewrite Hprimary in Hcollect. unfold len_set in Hcollect.
    rewrite Hsize in Hcollect. lia.
Qed.
(** C6, amended.  The Malop source is queried exactly when, after the
    primary pass, the number of unique hashes is below the fixed threshold
    1000 and, when a target is set, below the target.  When the primary pass
    yields 1000 hashes or more the Malop source is not queried and the
    primary set is returned as it is. *)
Theorem malops_sparsity_policy (set_iter : gset string → list string)
    fuel max_hashes batch_size post post_malops st0 c :
  _collect_hashes_efficiently set_iter fuel max_hashes batch_size post
    post_malops st0 = Some c →
  _get_file_hashes_direct set_iter fuel max_hashes batch_size post st0
    = Returned (primary_reason c) (primary_state c)
  ∧ (is_Some (malop_request c)
     ↔ len_set (hashes (primary_state c)) < 1000
       ∧ ∀ m, max_hashes = Some m → len_set (hashes (primary_state c)) < m)
  ∧ (1000 ≤ len_set (hashes (primary_state c)) →
     malop_request c = None
     ∧ all_hashes c = hashes (primary_state c)
     ∧ stats_after c = st (primary_state c)).
Proof.
  intros Hcollect.
  destruct (_get_file_hashes_direct set_iter fuel max_hashes batch_size post
              st0) as [why s| |] eqn:Hrun;
    [|unfold _collect_hashes_efficiently in Hcollect;
      by rewrite Hrun in Hcollect..].
  rewrite (collect_after_primary _ _ _ _ _ post_malops _ _ _ Hrun) in Hcollect.
  injection Hcollect as <-. rewrite <- malops_needed_true.
  destruct (malops_needed max_hashes (hashes s)) eqn:Hneeded;
    cbn [malop_request all_hashes stats_after primary_reason primary_state].
  - split; [done|]. split; [by split; [|eexists]|].
    apply malops_needed_true in Hneeded as [Hlt _]. intros Hge. lia.
  - split; [done|]. split; [|done].
    split; [by intros [? [=]]|by rewrite Hneeded].
Qed.

(** A primary pass that stops on a short page with one hash, no target: the
    Malop source is queried. *)
Lemma malops_sparsity_policy_witness :
  let c :=
    {| all_hashes := {[ Scenario.a40; Scenario.b40; Scenario.c32 ]};
       stats_after := Scenario.fresh;
       malop_request := Some 1000;
       primary_reason := SHORT_PAGE;
       primary_state :=
         {| hashes := {[ Scenario.a40 ]}; skip := 0; st := Scenario.fresh;
            requests := 1; merged := [Scenario.page1] |} |} in
  _collect_hashes_efficiently elements 3 None 1000
    (Scenario.pages_in_turn [Scenario.page1]) Scenario.malops_two
    Scenario.fresh = Some c
  ∧ (is_Some (malop_request c)
     ↔ len_set (hashes (primary_state c)) < 1000
       ∧ ∀ m, None = Some m → len_set (hashes (primary_state c)) < m).
Proof.
  intros c.
  assert (Hcollect :
    _collect_hashes_efficiently elements 3 None 1000
      (Scenario.pages_in_turn [Scenario.page1]) Scenario.malops_two
      Scenario.fresh = Some c) by (vm_compute; reflexivity).
  split; [exact Hcollect|].
  exact (proj1 (proj2 (malops_sparsity_policy elements 3 None 1000 _ _ _ c
                         Hcollect))).
Defined.

(** C10. The target is not enforced after the Malop merge.  When the
    primary pass returns fewer hashes than the target and than the threshold
    1000, the orchestrator returns the primary set united with all the Malop
    hashes, untrimmed; with target 2, a primary pass that yields one hash
    and a Malop answer with two more, three hashes are returned. *)
Theorem target_not_enforced_after_merge :
  (∀ (set_iter : gset string → list string) fuel target batch_size post
     post_malops st0 why s,
     _get_file_hashes_direct set_iter fuel (Some target) batch_size post st0
       = Returned why s →
     len_set (hashes s) < target →
     len_set (hashes s) < 1000 →
     ∃ c,
       _collect_hashes_efficiently set_iter fuel (Some target) batch_size
         post post_malops st0 = Some c
       ∧ all_hashes c
         = hashes s
           ∪ (_get_file_hashes_from_malops post_malops
                (remaining (Some target) (hashes s)) (st s)).1
       ∧ malop_request c
         = Some (malop_result_limit (remaining (Some target) (hashes s))))
  ∧ all_hashes
      <$> _collect_hashes_efficiently elements 3 (Some 2) 1000
            (Scenario.pages_in_turn [Scenario.page1]) Scenario.malops_two
            Scenario.fresh
    = Some {[ Scenario.a40; Scenario.b40; Scenario.c32 ]}
  ∧ 2 < len_set {[ Scenario.a40; Scenario.b40; Scenario.c32 ]}.
Proof.
  split; [|split; vm_compute; reflexivity].
  intros set_iter fuel target batch_size post post_malops st0 why s Hrun Ht Hs.
  rewrite (collect_after_primary _ _ _ _ _ post_malops _ _ _ Hrun).
  assert (malops_needed (Some target) (hashes s) = true) as ->.
  { apply malops_needed_true. split; [done|]. by intros ? [= <-]. }
  eexists. split; [reflexivity|]. done.
Qed.

(** The run of the theorem, taken through its general part. *)
Lemma target_not_enforced_after_merge_witness :
  let run := _get_file_hashes_direct elements 3 (Some 2) 1000
               (Scenario.pages_in_turn [Scenario.page1]) Scenario.fresh in
  run = Returned SHORT_PAGE (Scenario.final_state run)
  ∧ len_set (hashes (Scenario.final_state run)) < 2
  ∧ ∃ c,
      _collect_hashes_efficiently elements 3 (Some 2) 1000
        (Scenario.pages_in_turn [Scenario.page1]) Scenario.malops_two
        Scenario.fresh = Some c
      ∧ all_hashes c
        = hashes (Scenario.final_state run)
          ∪ (_get_file_hashes_from_malops Scenario.malops_two
               (remaining (Some 2) (hashes (Scenario.final_state run)))
               (st (Scenario.final_state run))).1
      ∧ malop_request c
        = Some (malop_result_limit
                  (remaining (Some 2) (hashes (Scenario.final_state run)))).
Proof.
  intros run.
  assert (Hrun : run = Returned SHORT_PAGE (Scenario.final_state run))
    by (vm_compute; reflexivity).
  assert (Hlt : len_set (hashes (Scenario.final_state run)) < 2)
    by (vm_compute; reflexivity).
  split; [exact Hrun|]. split; [exact Hlt|].
  apply (proj1 target_not_enforced_after_merge elements 3%nat 2 1000 _
           Scenario.malops_two Scenario.fresh SHORT_PAGE
           (Scenario.final_state run) Hrun Hlt).
  vm_compute. reflexivity.
Defined.

(** ** Result rows *)

Section Rows.

Lemma hash_type_kind hash_value :
  hash_type hash_value = kind_of_length (len hash_value).
Proof. reflexivity. Qed.

Lemma sorted_perm (set_iter : gset string → list string) hashes :
  (∀ X, set_iter X ≡ₚ elements X) →
  sorted set_iter hashes ≡ₚ elements hashes.
Proof.
  intros Hiter. unfold sorted. by rewrite merge_sort_Permutation.
Qed.

Lemma sorted_StronglySorted (set_iter : gset string → list string) hashes :
  StronglySorted String.le (sorted set_iter hashes).
Proof. apply StronglySorted_merge_sort; apply _. Qed.

(** A sorted list without repetition is strictly ascending. *)
Lemma strictly_ascending (l : list string) :
  StronglySorted String.le l → NoDup l →
  StronglySorted (λ a b, String.le a b ∧ a ≠ b) l.
Proof.
  induction 1 as [|a l Hsorted IH Hall]; intros Hnd; [constructor|].
  apply NoDup_cons in Hnd as [Ha Hnd]. constructor; [by apply IH|].
  apply Forall_forall. intros b Hb. split.
  - by eapply Forall_forall in Hall.
  - by intros ->.
Qed.

Lemma csv_rows_hashes (set_iter : gset string → list string) hashes date :
  (csv_rows set_iter hashes date).*1.*1 = sorted set_iter hashes.
Proof.
  unfold csv_rows. rewrite <- !list_fmap_compose. apply list_fmap_id.
Qed.

End Rows.

(** C8. Hash-kind inference.  The kind written next to a hash depends on
    the length of the hash alone: 32 gives "MD5", 40 gives "SHA1", 64 gives
    "SHA256" and any other length gives "UNKNOWN"; every row of the output
    carries the kind of its own hash. *)
Theorem hash_kind_inference :
  (∀ h, hash_type h = kind_of_length (len h))
  ∧ (∀ h, len h = 32 → hash_type h = "MD5")
  ∧ (∀ h, len h = 40 → hash_type h = "SHA1")
  ∧ (∀ h, len h = 64 → hash_type h = "SHA256")
  ∧ (∀ h, len h ≠ 32 → len h ≠ 40 → len h ≠ 64 → hash_type h = "UNKNOWN")
  ∧ (∀ h1 h2, len h1 = len h2 → hash_type h1 = hash_type h2)
  ∧ (∀ (set_iter : gset string → list string) hashes date row,
       row ∈ csv_rows set_iter hashes date →
       row = (row.1.1, kind_of_length (len row.1.1), date)).
Proof.
  split; [exact hash_type_kind|].
  split; [by intros h Hlen; unfold hash_type; rewrite Hlen|].
  split; [by intros h Hlen; unfold hash_type; rewrite Hlen|].
  split; [by intros h Hlen; unfold hash_type; rewrite Hlen|].
  split; [|split].
  - intros h H32 H40 H64. unfold hash_type.
    apply Z.eqb_neq in H32, H40, H64. by rewrite H32, H40, H64.
  - intros h1 h2 Hlen. by rewrite !hash_type_kind, Hlen.
  - intros set_iter hashes date row Hrow. unfold csv_rows in Hrow.
    apply list_elem_of_fmap in Hrow as (h & -> & _). reflexivity.
Qed.

(** The kinds of four concrete hashes, and the rows of a two-element set. *)
Lemma hash_kind_inference_witness :
  hash_type (repeat_char "c" 32) = "MD5"
  ∧ hash_type (repeat_char "a" 40) = "SHA1"
  ∧ hash_type (repeat_char "f" 64) = "SHA256"
  ∧ hash_type (repeat_char "a" 41) = "UNKNOWN"
  ∧ (Scenario.c32, "MD5", "2025-01-01 00:00:00")
    = ((Scenario.c32, "MD5", "2025-01-01 00:00:00").1.1,
       kind_of_length (len (Scenario.c32, "MD5", "2025-01-01 00:00:00").1.1),
       "2025-01-01 00:00:00").
Proof.
  destruct hash_kind_inference as (_ & H32 & H40 & H64 & Hother & _ & Hrows).
  split; [apply H32; reflexivity|].
  split; [apply H40; reflexivity|].
  split; [apply H64; reflexivity|].
  split; [apply Hother; discriminate|].
  apply (Hrows elements {[ Scenario.a40; Scenario.c32 ]}).
  vm_compute. apply list_elem_of_In. right. left. reflexivity.
Defined.

(** C9. Deterministic sorted output.  The rows handed to the writer list
    the hashes of the set, each once, in strictly ascending order of the hash
    string, each with its kind and the collection date; the sequence of rows
    is the same whatever the order in which the set is enumerated, so it is a
    function of the set and the date. *)
Theorem sorted_output (set_iter : gset string → list string) hashes date :
  (∀ X, set_iter X ≡ₚ elements X) →
  StronglySorted (λ a b, String.le a b ∧ a ≠ b)
    (csv_rows set_iter hashes date).*1.*1
  ∧ (csv_rows set_iter hashes date).*1.*1 ≡ₚ elements hashes
  ∧ (∀ h, h ∈ (csv_rows set_iter hashes date).*1.*1 ↔ h ∈ hashes)
  ∧ csv_rows set_iter hashes date
    = (λ h, (h, hash_type h, date)) <$> merge_sort String.le (elements hashes)
  ∧ (∀ set_iter' : gset string → list string,
       (∀ X, set_iter' X ≡ₚ elements X) →
       csv_rows set_iter' hashes date = csv_rows set_iter hashes date).
Proof.
  intros Hiter.
  assert (Hunique : ∀ it : gset string → list string,
    (∀ X, it X ≡ₚ elements X) →
    sorted it hashes = merge_sort String.le (elements hashes)).
  { intros it Hit. eapply (Sorted_unique String.le).
    - apply Sorted_merge_sort. apply _.
    - apply Sorted_merge_sort. apply _.
    - unfold sorted. by rewrite !merge_sort_Permutation. }
  rewrite csv_rows_hashes. split; [|split; [|split; [|split]]].
  - apply strictly_ascending; [apply sorted_StronglySorted|].
    rewrite (sorted_perm _ _ Hiter). apply NoDup_elements.
  - by apply sorted_perm.
  - intros h. by rewrite (sorted_perm _ _ Hiter), elem_of_elements.
  - unfold csv_rows. by rewrite (Hunique _ Hiter).
  - intros it Hit. unfold csv_rows. by rewrite (Hunique _ Hiter), (Hunique _ Hit).
Qed.

(** The rows of a three-element set, enumerated forwards or backwards. *)
Lemma sorted_output_witness :
  csv_rows elements {[ Scenario.b40; Scenario.c32; Scenario.a40 ]}
    "2025-01-01 00:00:00"
  = [(Scenario.a40, "SHA1", "2025-01-01 00:00:00");
     (Scenario.b40, "SHA1", "2025-01-01 00:00:00");
     (Scenario.c32, "MD5", "2025-01-01 00:00:00")]
  ∧ csv_rows (λ X, reverse (elements X))
      {[ Scenario.b40; Scenario.c32; Scenario.a40 ]} "2025-01-01 00:00:00"
    = csv_rows elements {[ Scenario.b40; Scenario.c32; Scenario.a40 ]}
        "2025-01-01 00:00:00".
Proof.
  split; [vm_compute; reflexivity|].
  apply (sorted_output elements {[ Scenario.b40; Scenario.c32; Scenario.a40 ]}
           "2025-01-01 00:00:00" (λ X, reflexivity (elements X))).
  intros X. apply reverse_Permutation.
Defined.

(** * Further properties of the collector *)

(** ** Every iteration of the primary loop *)

Section LoopEntries.

Variable set_iter : gset string → list string.

(** Destructs every test of one iteration, in a hypothesis-free goal. *)
Ltac iteration_cases :=
  unfold direct_step, on_page; cbv zeta;
  repeat match goal with
    | |- context [if ?b then _ else _] => destruct b eqn:?
    | |- context [match ?r with Response _ _ => _ | RequestException _ => _ end] =>
        destruct r eqn:?
    end;
  cbn [hashes skip st requests merged] in *.

Lemma entered_inv limit batch_limit post st0 s :
  entered set_iter limit batch_limit post st0 s → loop_inv limit s.
Proof.
  induction 1 as [|s s' _ IH Hstep]; [apply loop_inv_initial|].
  by apply (step_continue _ _ _ _ _ _ Hstep).
Qed.

(** A run that returns left the loop from an entered state. *)
Lemma returned_from_entered fuel limit batch_limit post st0 s why s' :
  entered set_iter limit batch_limit post st0 s →
  direct_loop set_iter fuel limit batch_limit post s = Returned why s' →
  ∃ s_last,
    entered set_iter limit batch_limit post st0 s_last
    ∧ direct_step set_iter limit batch_limit post s_last = Break why s'.
Proof.
  revert s. induction fuel as [|fuel IH]; intros s Hs; [done|].
  cbn [direct_loop].
  destruct (direct_step _ _ _ _ s) as [s1|why1 s1|] eqn:Hstep; [| |done].
  - apply IH. by eapply entered_next.
  - intros [= <- <-]. by exists s.
Qed.

Lemma run_from_entered fuel limit batch_size post st0 why s' :
  _get_file_hashes_direct set_iter fuel limit batch_size post st0
    = Returned why s' →
  ∃ s_last,
    entered set_iter limit batch_size post st0 s_last
    ∧ direct_step set_iter limit batch_size post s_last = Break why s'.
Proof. apply returned_from_entered. constructor. Qed.

(** One request is accounted for by each iteration, and the error counter
    never goes down. *)
Lemma step_accounting limit batch_limit post s :
  match direct_step set_iter limit batch_limit post s with
  | Continue s' =>
      requests s' = S (requests s)
      ∧ errors (st s) ≤ errors (st s')
      ∧ Z.of_nat (length (merged s')) + errors (st s')
        = Z.of_nat (length (merged s)) + errors (st s) + 1
  | Break why s' =>
      requests s' = S (requests s)
      ∧ errors (st s) ≤ errors (st s')
      ∧ Z.of_nat (length (merged s')) + errors (st s') + empty_answers why
        = Z.of_nat (length (merged s)) + errors (st s) + 1
  | Raise => True
  end.
Proof.
  iteration_cases; try done; (split; [done|]);
    rewrite ?length_app;
    cbn [length count_batch count_error errors empty_answers]; lia.
Qed.

Lemma entered_accounting limit batch_limit post st0 s :
  entered set_iter limit batch_limit post st0 s →
  errors st0 ≤ errors (st s)
  ∧ Z.of_nat (requests s)
    = Z.of_nat (length (merged s)) + (errors (st s) - errors st0).
Proof.
  induction 1 as [|s s' _ IH Hstep]; [cbn; lia|].
  pose proof (step_accounting limit batch_limit post s) as Hacc.
  rewrite Hstep in Hacc. destruct Hacc as (-> & Herr & Hacc).
  rewrite Nat2Z.inj_succ. lia.
Qed.

End LoopEntries.

(** X1. Request accounting.  When the primary loop returns, every request it
    made is accounted for exactly once: it was merged as a page, or it failed
    and raised the error counter, or it was the final request answered with
    an empty result map.  The error counter never goes down and no more
    pages are merged than requests were made. *)
Theorem request_accounting (set_iter : gset string → list string)
    fuel limit batch_size post st0 why s :
  _get_file_hashes_direct set_iter fuel limit batch_size post st0
    = Returned why s →
  Z.of_nat (requests s)
  = Z.of_nat (length (merged s)) + (errors (st s) - errors st0)
    + empty_answers why
  ∧ errors st0 ≤ errors (st s)
  ∧ (length (merged s) ≤ requests s)%nat.
Proof.
  intros Hrun. apply run_from_entered in Hrun as (s1 & Hent & Hstep).
  pose proof (entered_accounting _ _ _ _ _ _ Hent) as [Herr0 Hacc].
  pose proof (step_accounting set_iter limit batch_size post s1) as Hlast.
  rewrite Hstep in Hlast. destruct Hlast as (Hreq & Herr & Hlast).
  assert (0 ≤ empty_answers why) by (by destruct why).
  rewrite Hreq, Nat2Z.inj_succ. split; [lia|]. split; [lia|].
  apply Nat2Z.inj_le. rewrite Nat2Z.inj_succ. lia.
Qed.

(** A connection that breaks once, two pages, then an empty answer: four
    requests, two merged pages, one error, one empty answer. *)
Lemma request_accounting_witness :
  let run := _get_file_hashes_direct elements 6 None 1 Cases.flaky
               Scenario.fresh in
  let s := Scenario.final_state run in
  run = Returned PAGE_EMPTY s
  ∧ requests s = 4%nat
  ∧ Z.of_nat (requests s)
    = Z.of_nat (length (merged s)) + (errors (st s) - errors Scenario.fresh)
      + empty_answers PAGE_EMPTY.
Proof.
  intros run s.
  assert (Hrun : run = Returned PAGE_EMPTY s) by (vm_compute; reflexivity).
  split; [exact Hrun|]. split; [vm_compute; reflexivity|].
  exact (proj1 (request_accounting elements 6 None 1 Cases.flaky
                  Scenario.fresh PAGE_EMPTY s Hrun)).
Defined.

Section LoopBounds.

Variable set_iter : gset string → list string.

(** A request that is answered, whatever the answer, never continues the
    loop once the batch counter is one short of the ceiling. *)
Lemma answered_step_counts limit batch_limit post s s' :
  (∀ n size offset, ∃ code file_hashes,
     post n size offset = Response code file_hashes) →
  direct_step set_iter limit batch_limit post s = Continue s' →
  batches_processed (st s') = batches_processed (st s) + 1
  ∧ batches_processed (st s') < max_batches.
Proof.
  intros Hanswered. unfold direct_step, on_page. cbv zeta.
  destruct (Hanswered (requests s)
              (page_size batch_limit (remaining limit (hashes s))) (skip s))
    as (code & file_hashes & ->).
  repeat match goal with
    | |- context [if ?b then _ else _] => destruct b eqn:?
    end; try done.
  intros [= <-]. cbn [st count_batch batches_processed] in *. lia.
Qed.

Lemma answered_loop_returns fuel limit batch_limit post s :
  (∀ n size offset, ∃ code file_hashes,
     post n size offset = Response code file_hashes) →
  Z.max 0 (max_batches - batches_processed (st s)) < Z.of_nat fuel →
  direct_loop set_iter fuel limit batch_limit post s ≠ OutOfFuel.
Proof.
  intros Hanswered. revert s. induction fuel as [|fuel IH]; intros s Hfuel.
  - cbn in Hfuel. lia.
  - cbn [direct_loop].
    destruct (direct_step _ _ _ _ s) as [s1|why1 s1|] eqn:Hstep; [|done..].
    apply IH.
    apply (answered_step_counts _ _ _ _ _ Hanswered) in Hstep as [Hcount Hcap].
    rewrite Nat2Z.inj_succ in Hfuel. lia.
Qed.

(** A connection that breaks on every request keeps the loop going. *)
Lemma broken_step limit batch_limit (post : source) s :
  batch_limit ≠ 0 →
  (∀ n size offset, ∃ str_e,
     post n size offset = RequestException str_e
     ∧ is_connection_error str_e = true) →
  ∃ s', direct_step set_iter limit batch_limit post s = Continue s'
        ∧ hashes s' = hashes s.
Proof.
  intros Hb Hbroken. unfold direct_step. cbv zeta.
  apply Z.eqb_neq in Hb. rewrite Hb.
  destruct (Hbroken (requests s)
              (page_size batch_limit (remaining limit (hashes s))) (skip s))
    as (str_e & -> & ->).
  eexists. split; reflexivity.
Qed.

Lemma broken_loop fuel limit batch_limit (post : source) s :
  batch_limit ≠ 0 →
  (∀ n size offset, ∃ str_e,
     post n size offset = RequestException str_e
     ∧ is_connection_error str_e = true) →
  direct_loop set_iter fuel limit batch_limit post s = OutOfFuel.
Proof.
  intros Hb Hbroken. revert s. induction fuel as [|fuel IH]; intros s; [done|].
  cbn [direct_loop].
  destruct (broken_step limit batch_limit post s Hb Hbroken) as (s' & -> & _).
  apply IH.
Qed.

(** With no target, or target 0, every request asks for [batch_limit]
    entities and [skip] moves by [batch_limit]. *)
Lemma untargeted_step limit batch_limit post s s' :
  truthy_opt limit = false →
  direct_step set_iter limit batch_limit post s = Continue s' →
  skip s' = skip s + batch_limit
  ∧ batches_processed (st s') = batches_processed (st s) + 1
  ∧ requests s' = S (requests s).
Proof.
  intros Hlimit.
  assert (∀ X, page_size batch_limit (remaining limit X) = batch_limit) as Hsize.
  { intros X. unfold remaining. destruct limit as [l|]; [|done].
    by rewrite Hlimit. }
  unfold direct_step, on_page. cbv zeta. rewrite !Hsize.
  repeat match goal with
    | |- context [if ?b then _ else _] => destruct b
    | |- context [match ?r with Response _ _ => _ | RequestException _ => _ end] =>
        destruct r
    end; try done; by intros [= <-].
Qed.

End LoopBounds.

(** X2. The safety ceiling.  Against a source that answers every request
    (with any status), and with a non-zero batch size, the primary loop
    returns once the fuel exceeds what is left of the ceiling of 10000
    batches; it makes at most [max_batches - batches_processed] requests (one
    when the collector's batch counter has already reached the ceiling), and
    never stops as REQUEST_FAILED.  The counter is the collector's own, so
    batches of earlier runs count. *)
Theorem answered_source_terminates (set_iter : gset string → list string)
    fuel limit batch_size (post : source) st0 :
  (∀ n size offset, ∃ code file_hashes,
     post n size offset = Response code file_hashes) →
  batch_size ≠ 0 →
  Z.max 0 (max_batches - batches_processed st0) < Z.of_nat fuel →
  ∃ why s,
    _get_file_hashes_direct set_iter fuel limit batch_size post st0
      = Returned why s
    ∧ Z.of_nat (requests s) ≤ Z.max 1 (max_batches - batches_processed st0)
    ∧ why ≠ REQUEST_FAILED.
Proof.
  intros Hanswered Hb Hfuel.
  pose proof (answered_loop_returns set_iter fuel limit batch_size post
                (initial_state st0) Hanswered Hfuel) as Hreturns.
  fold (_get_file_hashes_direct set_iter fuel limit batch_size post st0)
    in Hreturns.
  destruct (_get_file_hashes_direct set_iter fuel limit batch_size post st0)
    as [why s| |] eqn:Hrun; [| |done].
  - exists why, s. split; [done|].
    apply run_from_entered in Hrun as (s1 & Hent & Hstep).
    assert (batches_processed (st s1)
            = batches_processed st0 + Z.of_nat (requests s1)
            ∧ (requests s1 ≠ 0%nat → batches_processed (st s1) < max_batches))
      as [Hcount Hcap].
    { clear Hstep. induction Hent as [|s2 s3 _ IH Hnext]; [by cbn; lia|].
      pose proof (step_accounting set_iter limit batch_size post s2) as Hreq.
      rewrite Hnext in Hreq. destruct Hreq as [-> _].
      apply (answered_step_counts _ _ _ _ _ _ Hanswered) in Hnext as [-> ?].
      rewrite Nat2Z.inj_succ. lia. }
    split.
    + pose proof (step_accounting set_iter limit batch_size post s1) as Hreq.
      rewrite Hstep in Hreq. destruct Hreq as [-> _].
      rewrite Nat2Z.inj_succ.
      destruct (decide (requests s1 = 0%nat)) as [->|Hpos]; [cbn; lia|].
      specialize (Hcap Hpos). lia.
    + intros ->. revert Hstep. unfold direct_step, on_page. cbv zeta.
      destruct (Hanswered (requests s1)
                  (page_size batch_size (remaining limit (hashes s1)))
                  (skip s1)) as (code & file_hashes & ->).
      repeat match goal with
        | |- context [if ?b then _ else _] => destruct b
        end; done.
  - exfalso. unfold _get_file_hashes_direct in Hrun.
    destruct fuel as [|fuel]; [done|]. cbn [direct_loop] in Hrun.
    destruct (direct_step _ _ _ _ (initial_state st0)) as [s1|why1 s1|]
      eqn:Hstep.
    + destruct fuel as [|fuel]; [done|].
      clear Hfuel Hreturns. revert s1 Hstep Hrun.
      assert (∀ f s, direct_loop set_iter f limit batch_size post s
                     ≠ ZeroDivisionError) as Hnever.
      { induction f as [|f IH]; intros s'; [done|]. cbn [direct_loop].
        destruct (direct_step _ _ _ _ s') eqn:Hs; [apply IH|done|].
        by apply step_raise in Hs. }
      intros s1 _ Hrun. by apply Hnever in Hrun.
    + done.
    + by apply step_raise in Hstep.
Qed.

(** A collector that has processed 9990 batches, with fuel 11. *)
Lemma answered_source_terminates_witness :
  ∃ why s,
    _get_file_hashes_direct elements 11 None 1
      (Scenario.pages_in_turn [Scenario.page1; Scenario.page2; ∅])
      Cases.worn = Returned why s
    ∧ Z.of_nat (requests s)
      ≤ Z.max 1 (max_batches - batches_processed Cases.worn)
    ∧ why ≠ REQUEST_FAILED.
Proof.
  apply (answered_source_terminates elements 11 None 1
           (Scenario.pages_in_turn [Scenario.page1; Scenario.page2; ∅])
           Cases.worn).
  - intros n size offset. eexists _, _. reflexivity.
  - discriminate.
  - reflexivity.
Defined.

(** X3. No ceiling on connection errors.  When every request raises an
    exception whose message holds "Connection broken" or "IncompleteRead",
    the primary loop never returns, whatever the fuel: every iteration
    continues, the set stays empty, and the error and batch counters grow
    by one per request, past [max_batches], because the ceiling is only
    tested after a page was merged. *)
Theorem broken_connection_never_returns (set_iter : gset string → list string)
    limit batch_size (post : source) st0 :
  batch_size ≠ 0 →
  (∀ n size offset, ∃ str_e,
     post n size offset = RequestException str_e
     ∧ is_connection_error str_e = true) →
  (∀ fuel,
     _get_file_hashes_direct set_iter fuel limit batch_size post st0
     = OutOfFuel)
  ∧ (∀ s, entered set_iter limit batch_size post st0 s →
          hashes s = ∅
          ∧ errors (st s) = errors st0 + Z.of_nat (requests s)
          ∧ batches_processed (st s)
            = batches_processed st0 + Z.of_nat (requests s)
          ∧ ∃ s', direct_step set_iter limit batch_size post s = Continue s').
Proof.
  intros Hb Hbroken. split.
  - intros fuel. by apply broken_loop.
  - intros s Hent.
    assert (hashes s = ∅
            ∧ errors (st s) = errors st0 + Z.of_nat (requests s)
            ∧ batches_processed (st s)
              = batches_processed st0 + Z.of_nat (requests s))
      as (Hh & He & Hbatch).
    { induction Hent as [|s1 s2 _ (IHh & IHe & IHb) Hstep];
        [cbn; split; [done|lia]|].
      revert Hstep. unfold direct_step. cbv zeta.
      assert ((batch_size =? 0) = false) as -> by lia.
      destruct (Hbroken (requests s1)
                  (page_size batch_size (remaining limit (hashes s1)))
                  (skip s1)) as (str_e & -> & ->).
      intros [= <-]. cbn [hashes st requests errors batches_processed
                          count_batch count_error].
      rewrite Nat2Z.inj_succ. split; [done|]. lia. }
    split; [done|]. split; [done|]. split; [done|].
    destruct (broken_step set_iter limit batch_size post s Hb Hbroken)
      as (s' & Hstep & _).
    by exists s'.
Qed.

(** Forty iterations against a connection that is always broken. *)
Lemma broken_connection_never_returns_witness :
  _get_file_hashes_direct elements 40 None 1000 Cases.always_broken
    Scenario.fresh = OutOfFuel.
Proof.
  apply (broken_connection_never_returns elements None 1000
           Cases.always_broken Scenario.fresh).
  - discriminate.
  - intros n size offset. eexists. split; reflexivity.
Defined.

(** X4. Page offsets without a target.  With no target (or target 0), each
    time the loop body is entered [skip] is [batch_size] times the number of
    requests made so far, the page size asked for is [batch_size], and the
    batch counter has grown by the number of requests: successive requests
    ask for consecutive slices, whether the earlier ones were merged or lost
    to a connection error. *)
Theorem untargeted_offsets (set_iter : gset string → list string)
    limit batch_size (post : source) st0 s :
  truthy_opt limit = false →
  entered set_iter limit batch_size post st0 s →
  skip s = batch_size * Z.of_nat (requests s)
  ∧ page_size batch_size (remaining limit (hashes s)) = batch_size
  ∧ batches_processed (st s) = batches_processed st0 + Z.of_nat (requests s).
Proof.
  intros Hlimit Hent.
  assert (∀ X, page_size batch_size (remaining limit X) = batch_size)
    as Hsize.
  { intros X. unfold remaining. destruct limit as [l|]; [|done].
    by rewrite Hlimit. }
  split; [|split; [apply Hsize|]];
    (induction Hent as [|s1 s2 _ IH Hstep]; [cbn; lia|]);
    apply (untargeted_step _ _ _ _ _ _ Hlimit) in Hstep as (Hskip & Hcount & Hreq);
    rewrite Hreq, Nat2Z.inj_succ; lia.
Qed.

(** The state after one merged page, batch size 1. *)
Lemma untargeted_offsets_witness :
  skip Cases.after_page1 = 1 * Z.of_nat (requests Cases.after_page1)
  ∧ page_size 1 (remaining None (hashes Cases.after_page1)) = 1
  ∧ batches_processed (st Cases.after_page1)
    = batches_processed Scenario.fresh
      + Z.of_nat (requests Cases.after_page1).
Proof.
  apply (untargeted_offsets elements None 1
           (Scenario.pages_in_turn [Scenario.page1; Scenario.page2; ∅])
           Scenario.fresh Cases.after_page1).
  - reflexivity.
  - eapply entered_next; [apply entered_first|]. vm_compute. reflexivity.
Defined.

(** X5. Page size under a target.  With a positive target, each time the loop
    body is entered the accumulated set is still below the target and the
    page size asked for is the smaller of the batch size and what is still
    needed; with a positive batch size it is positive and never more than
    what is still needed. *)
Theorem targeted_page_size (set_iter : gset string → list string)
    target batch_size (post : source) st0 s :
  0 < target →
  entered set_iter (Some target) batch_size post st0 s →
  len_set (hashes s) < target
  ∧ page_size batch_size (remaining (Some target) (hashes s))
    = Z.min batch_size (target - len_set (hashes s))
  ∧ (0 < batch_size →
     0 < page_size batch_size (remaining (Some target) (hashes s))
       ≤ target - len_set (hashes s)).
Proof.
  intros Hpos Hent. apply entered_inv in Hent as [_ Hlt].
  specialize (Hlt target eq_refl Hpos).
  assert (page_size batch_size (remaining (Some target) (hashes s))
          = Z.min batch_size (target - len_set (hashes s))) as Hsize.
  { unfold page_size, remaining. cbn [truthy_opt].
    assert ((target =? 0) = false) as -> by lia. cbn [negb truthy_opt].
    assert ((target - len_set (hashes s) =? 0) = false) as -> by lia.
    done. }
  split; [done|]. split; [done|]. rewrite Hsize. lia.
Qed.

(** The first request with target 10 and batch size 1000 asks for 10. *)
Lemma targeted_page_size_witness :
  len_set (hashes (initial_state Scenario.fresh)) < 10
  ∧ page_size 1000 (remaining (Some 10) (hashes (initial_state Scenario.fresh)))
    = Z.min 1000 (10 - len_set (hashes (initial_state Scenario.fresh)))
  ∧ (0 < 1000 →
     0 < page_size 1000
           (remaining (Some 10) (hashes (initial_state Scenario.fresh)))
       ≤ 10 - len_set (hashes (initial_state Scenario.fresh))).
Proof.
  apply (targeted_page_size elements 10 1000
           (Scenario.pages_in_turn [Scenario.page1]) Scenario.fresh).
  - reflexivity.
  - apply entered_first.
Defined.

Section Targets.

Variable set_iter : gset string → list string.

Lemma zero_target_step batch_limit post s :
  direct_step set_iter (Some 0) batch_limit post s
  = direct_step set_iter None batch_limit post s.
Proof. reflexivity. Qed.

Lemma zero_target_loop fuel batch_limit post s :
  direct_loop set_iter fuel (Some 0) batch_limit post s
  = direct_loop set_iter fuel None batch_limit post s.
Proof.
  revert s. induction fuel as [|fuel IH]; intros s; [done|].
  cbn [direct_loop]. rewrite zero_target_step.
  destruct (direct_step _ _ _ _ s); [apply IH|done..].
Qed.

(** With a negative target no page is merged before the last iteration. *)
Lemma negative_target_entered target batch_limit post st0 s :
  target < 0 →
  entered set_iter (Some target) batch_limit post st0 s →
  hashes s = ∅ ∧ merged s = [].
Proof.
  intros Hneg. induction 1 as [|s1 s2 _ [IHh IHm] Hstep]; [done|].
  revert Hstep. unfold direct_step, on_page. cbv zeta.
  assert (∀ X, limit_hit (Some target) X = true) as Hhit.
  { intros X. apply limit_hit_true. exists target. unfold len_set.
    split; [done|]. lia. }
  destruct (batch_limit =? 0); [done|].
  destruct (post _ _ _); rewrite ?Hhit;
    repeat match goal with
      | |- context [if ?b then _ else _] => destruct b
      end; try done; by intros [= <-].
Qed.

End Targets.

(** X6. Target 0 means no target.  The primary loop with target 0 behaves as
    with no target at all, and the orchestrator then returns the primary set
    as it is and never queries the Malop source, however few hashes the
    primary pass found. *)
Theorem zero_target_is_unlimited (set_iter : gset string → list string)
    fuel batch_size post post_malops st0 :
  _get_file_hashes_direct set_iter fuel (Some 0) batch_size post st0
  = _get_file_hashes_direct set_iter fuel None batch_size post st0
  ∧ ∀ c,
      _collect_hashes_efficiently set_iter fuel (Some 0) batch_size post
        post_malops st0 = Some c →
      malop_request c = None
      ∧ all_hashes c = hashes (primary_state c)
      ∧ _get_file_hashes_direct set_iter fuel None batch_size post st0
        = Returned (primary_reason c) (primary_state c).
Proof.
  split; [apply zero_target_loop|]. intros c Hcollect.
  pose proof (collect_primary _ _ _ _ _ _ _ _ Hcollect) as Hrun.
  rewrite (collect_after_primary _ _ _ _ _ post_malops _ _ _ Hrun) in Hcollect.
  assert (malops_needed (Some 0) (hashes (primary_state c)) = false) as Hno.
  { unfold malops_needed, wants_more, len_set. apply andb_false_iff. left.
    apply Z.ltb_ge. lia. }
  rewrite Hno in Hcollect. injection Hcollect as Hc.
  unfold _get_file_hashes_direct in *. rewrite <- zero_target_loop.
  rewrite <- Hc at 1 2. done.
Qed.

(** Target 0 against one short page: no Malop request. *)
Lemma zero_target_is_unlimited_witness :
  let c := Cases.collected
             (_collect_hashes_efficiently elements 3 (Some 0) 1000
                (Scenario.pages_in_turn [Scenario.page1]) Scenario.malops_two
                Scenario.fresh) in
  malop_request c = None ∧ all_hashes c = hashes (primary_state c).
Proof.
  intros c.
  destruct (zero_target_is_unlimited elements 3 1000
              (Scenario.pages_in_turn [Scenario.page1]) Scenario.malops_two
              Scenario.fresh) as [_ Hcollect].
  destruct (Hcollect c) as (Hno & Hall & _); [vm_compute; reflexivity|].
  by split.
Defined.

(** X7. A negative target.  With a negative target the loop merges at most
    one page: the first page that brings a hash ends the run as
    LIMIT_REACHED, and the returned set holds all the hashes of that page
    but [- target] of them (none when the page has fewer); a run that ends
    otherwise returns the empty set, and the run never ends as SHORT_PAGE or
    BATCH_CAP_REACHED. *)
Theorem negative_target_truncates (set_iter : gset string → list string)
    fuel target batch_size post st0 why s :
  (∀ X, set_iter X ≡ₚ elements X) →
  target < 0 →
  _get_file_hashes_direct set_iter fuel (Some target) batch_size post st0
    = Returned why s →
  (length (merged s) ≤ 1)%nat
  ∧ why ≠ SHORT_PAGE ∧ why ≠ BATCH_CAP_REACHED
  ∧ (why = LIMIT_REACHED →
     len_set (hashes s) = Z.max 0 (len_set (accumulate (merged s)) + target))
  ∧ (why ≠ LIMIT_REACHED → hashes s = ∅).
Proof.
  intros Hiter Hneg Hrun.
  pose proof Hrun as Hret.
  apply loop_returned in Hret as [Hother Hlimit]; [|apply loop_inv_initial].
  apply run_from_entered in Hrun as (s1 & Hent & Hstep).
  apply (negative_target_entered _ _ _ _ _ _ Hneg) in Hent as [Hh Hm].
  assert (∀ X, limit_hit (Some target) X = true) as Hhit.
  { intros X. apply limit_hit_true. exists target. unfold len_set.
    split; [done|]. lia. }
  assert ((length (merged s) ≤ 1)%nat ∧ why ≠ SHORT_PAGE
          ∧ why ≠ BATCH_CAP_REACHED
          ∧ (why ≠ LIMIT_REACHED → hashes s = ∅)) as (Hlen & Hsp & Hcap & He).
  { revert Hstep. unfold direct_step, on_page. cbv zeta.
    destruct (batch_size =? 0); [done|].
    destruct (post _ _ _); rewrite ?Hhit;
      repeat match goal with
        | |- context [if ?b then _ else _] => destruct b eqn:?
        end; try done; intros [= <- <-];
      cbn [merged hashes]; rewrite ?Hm, ?Hh; cbn [app length];
      (split; [lia|]); (split; [done|]); (split; [done|]); try done.
    intros _.
    match goal with H : (_ - _ =? 0) = true |- _ =>
      apply Z.eqb_eq in H; cbn [hashes] in H; rewrite Hh in H;
      unfold len_set in H; rewrite size_empty in H end.
    apply leibniz_equiv, size_empty_inv. lia. }
  split; [done|]. split; [done|]. split; [done|]. split; [|done].
  intros Hwhy. destruct (Hlimit Hwhy) as (l & [= <-] & _ & _ & ->).
  unfold trim, slice_to, len_set.
  assert ((target <? 0) = true) as -> by lia.
  assert (NoDup (set_iter (accumulate (merged s)))) as Hnd.
  { rewrite Hiter. apply NoDup_elements. }
  rewrite size_list_to_set
    by (eapply sublist_NoDup; [exact Hnd|apply sublist_take]).
  rewrite length_take, (Permutation_length (Hiter _)).
  change (length (elements (accumulate (merged s))))
    with (size (accumulate (merged s))). lia.
Qed.

(** Target -1 against a page with three hashes: two are returned. *)
Lemma negative_target_truncates_witness :
  let run := _get_file_hashes_direct elements 3 (Some (-1)) 1000
               (Scenario.pages_in_turn [Scenario.page_mixed])
               Scenario.fresh in
  let s := Scenario.final_state run in
  run = Returned LIMIT_REACHED s
  ∧ len_set (accumulate (merged s)) = 3
  ∧ len_set (hashes s) = Z.max 0 (len_set (accumulate (merged s)) + -1).
Proof.
  intros run s.
  assert (Hrun : run = Returned LIMIT_REACHED s) by (vm_compute; reflexivity).
  split; [exact Hrun|]. split; [vm_compute; reflexivity|].
  destruct (negative_target_truncates elements 3 (-1) 1000 _ Scenario.fresh
              LIMIT_REACHED s (λ X, reflexivity (elements X)) eq_refl Hrun)
    as (_ & _ & _ & Hsize & _).
  by apply Hsize.
Defined.

(** X8. The target bounds the primary result.  With a positive target the
    primary loop never returns more hashes than the target, and it returns
    exactly that many precisely when it stopped as LIMIT_REACHED. *)
Theorem target_bounds_result (set_iter : gset string → list string)
    fuel target batch_size post st0 why s :
  (∀ X, set_iter X ≡ₚ elements X) →
  0 < target →
  _get_file_hashes_direct set_iter fuel (Some target) batch_size post st0
    = Returned why s →
  len_set (hashes s) ≤ target
  ∧ (len_set (hashes s) = target ↔ why = LIMIT_REACHED).
Proof.
  intros Hiter Hpos Hrun.
  apply loop_returned in Hrun as [Hother Hlimit]; [|apply loop_inv_initial].
  destruct (decide (why = LIMIT_REACHED)) as [Hwhy|Hwhy].
  - destruct (Hlimit Hwhy) as (l & [= <-] & _ & Hle & ->).
    rewrite trim_size by (done || lia). split; [lia|done].
  - destruct (Hother Hwhy) as [_ Hlt]. specialize (Hlt target eq_refl Hpos).
    split; [lia|]. split; [lia|done].
Qed.

(** Target 2 against a page with three hashes. *)
Lemma target_bounds_result_witness :
  let run := _get_file_hashes_direct elements 3 (Some 2) 1000
               (Scenario.pages_in_turn [Scenario.page_mixed])
               Scenario.fresh in
  let s := Scenario.final_state run in
  run = Returned LIMIT_REACHED s ∧ len_set (hashes s) ≤ 2.
Proof.
  intros run s.
  assert (Hrun : run = Returned LIMIT_REACHED s) by (vm_compute; reflexivity).
  split; [exact Hrun|].
  exact (proj1 (target_bounds_result elements 3 2 1000 _ Scenario.fresh
                  LIMIT_REACHED s (λ X, reflexivity (elements X)) eq_refl
                  Hrun)).
Defined.

(** ** What the extractors keep *)

Section Kept.

Lemma field_values_elem name e v :
  v ∈ field_values name e
  ↔ ∃ simple_values data vs,
      simpleValues e = Some simple_values
      ∧ simple_values !! name = Some data
      ∧ values data = Some vs
      ∧ v ∈ vs.
Proof.
  unfold field_values. split.
  - destruct (simpleValues e) as [sv|]; [|by intros ?%not_elem_of_nil].
    destruct (sv !! name) as [data|] eqn:Hdata; [|by intros ?%not_elem_of_nil].
    destruct (values data) as [vs|] eqn:Hvs; [|by intros ?%not_elem_of_nil].
    intros Hv. by exists sv, data, vs.
  - intros (sv & data & vs & -> & -> & -> & Hv). done.
Qed.

Lemma entity_valid_strings_elem x e :
  x ∈ entity_valid_strings e
  ↔ isalnum x = true
    ∧ ((len x = 40 ∧ VStr x ∈ field_values "sha1HexString" e)
       ∨ (len x = 32 ∧ VStr x ∈ field_values "iconMd5HexString" e)).
Proof.
  unfold entity_valid_strings.
  rewrite elem_of_app, !list_elem_of_omap.
  setoid_rewrite valid_string_Some. setoid_rewrite valid_iff. split.
  - intros [(v & Hv & -> & s & [= <-] & Hlen & Hs)
           |(v & Hv & -> & s & [= <-] & Hlen & Hs)]; eauto.
  - intros (Hs & [[Hlen Hv]|[Hlen Hv]]); [left|right];
      exists (VStr x); eauto 10.
Qed.

Lemma page_valid_strings_elem x (p : page) :
  x ∈ page_valid_strings p
  ↔ ∃ id e, p !! id = Some e ∧ x ∈ entity_valid_strings e.
Proof.
  unfold page_valid_strings. rewrite list_elem_of_In, in_concat.
  setoid_rewrite <- list_elem_of_In. split.
  - intros (l & Hl & Hx). apply list_elem_of_fmap in Hl as (e & -> & He).
    apply list_elem_of_fmap in He as ([id e'] & -> & He).
    apply elem_of_map_to_list in He. by exists id, e'.
  - intros (id & e & He & Hx). exists (entity_valid_strings e).
    split; [|done]. apply list_elem_of_fmap. exists e. split; [done|].
    apply list_elem_of_fmap. exists (id, e). split; [done|].
    by apply elem_of_map_to_list.
Qed.

Lemma add_string_eq (X : gset string) v :
  add_string X v = X ∪ list_to_set (omap kept_string [v]).
Proof.
  unfold add_string. simpl. unfold kept_string.
  destruct v as [| | |s|]; simpl;
    first [destruct (negb _); set_solver | destruct b; set_solver
          | destruct truth; set_solver | set_solver].
Qed.

Lemma foldl_add_string vs (X : gset string) :
  foldl add_string X vs = X ∪ list_to_set (omap kept_string vs).
Proof.
  revert X. induction vs as [|v vs IH]; intros X.
  - simpl. set_solver.
  - cbn [foldl]. rewrite IH, add_string_eq. simpl.
    destruct (kept_string v); set_solver.
Qed.

Lemma malop_field_eq e (X : gset string) hash_field :
  malop_field (default ∅ (simpleValues e)) X hash_field
  = X ∪ list_to_set (omap kept_string (field_values hash_field e)).
Proof.
  unfold malop_field, field_values.
  destruct (simpleValues e) as [sv|]; simpl.
  - destruct (sv !! hash_field) as [[[[|v vs]|]]|]; simpl;
      [set_solver| |set_solver..].
    apply (foldl_add_string (v :: vs)).
  - rewrite lookup_empty. set_solver.
Qed.

Lemma malop_entity_eq (X : gset string) e :
  malop_entity X e = X ∪ list_to_set (malop_entity_strings e).
Proof.
  unfold malop_entity, malop_entity_strings, malop_fields. cbv zeta.
  cbn [foldl fmap list_fmap concat]. rewrite !malop_field_eq, app_nil_r.
  rewrite !list_to_set_app_L. set_solver.
Qed.

Lemma foldl_malop_entity es (X : gset string) :
  foldl malop_entity X es
  = X ∪ list_to_set (concat (malop_entity_strings <$> es)).
Proof.
  revert X. induction es as [|e es IH]; intros X; simpl.
  - set_solver.
  - rewrite IH, malop_entity_eq, list_to_set_app_L. set_solver.
Qed.

Lemma malop_entity_strings_elem x e :
  x ∈ malop_entity_strings e
  ↔ x ≠ "" ∧ ∃ hash_field,
      hash_field ∈ malop_fields ∧ VStr x ∈ field_values hash_field e.
Proof.
  unfold malop_entity_strings. rewrite list_elem_of_In, in_concat.
  setoid_rewrite <- list_elem_of_In. split.
  - intros (l & Hl & Hx). apply list_elem_of_fmap in Hl as (f & -> & Hf).
    apply list_elem_of_omap in Hx as (v & Hv & Hkept).
    unfold kept_string in Hkept. destruct v as [| | |s|]; try done.
    destruct (truthy (VStr s)) eqn:Hs; [|done]. injection Hkept as ->.
    apply truthy_str in Hs. split; [done|]. by exists f.
  - intros (Hx & f & Hf & Hv).
    exists (omap kept_string (field_values f e)). split.
    + apply list_elem_of_fmap. by exists f.
    + apply list_elem_of_omap. exists (VStr x). split; [done|].
      unfold kept_string. by apply truthy_str in Hx as ->.
Qed.

End Kept.

(** X9. What the batch extractor keeps.  A string is in the extracted set
    exactly when it is alphanumeric and occurs as a string in the value
    list of the SHA1 field of some entity with length 40, or of the icon MD5
    field with length 32.  Entities without [simpleValues], fields without
    [values], empty value lists and values that are not strings, contribute
    nothing and raise nothing; a value of the right shape for the other
    field is dropped. *)
Theorem extract_membership (file_hashes : page) x :
  x ∈ _extract_hashes_from_batch file_hashes
  ↔ isalnum x = true
    ∧ ∃ hash_id hash_data simple_values data vs,
        file_hashes !! hash_id = Some hash_data
        ∧ simpleValues hash_data = Some simple_values
        ∧ values data = Some vs
        ∧ VStr x ∈ vs
        ∧ ((len x = 40 ∧ simple_values !! "sha1HexString" = Some data)
           ∨ (len x = 32 ∧ simple_values !! "iconMd5HexString" = Some data)).
Proof.
  rewrite extract_eq, elem_of_list_to_set, page_valid_strings_elem.
  setoid_rewrite entity_valid_strings_elem.
  setoid_rewrite field_values_elem. split.
  - intros (id & e & He & Hs & [(Hlen & sv & data & vs & ? & ? & ? & ?)
                                |(Hlen & sv & data & vs & ? & ? & ? & ?)]);
      (split; [done|]); exists id, e, sv, data, vs; eauto 10.
  - intros (Hs & id & e & sv & data & vs & He & Hsv & Hvs & Hv
            & [[Hlen Hd]|[Hlen Hd]]);
      exists id, e; (split; [done|]); (split; [done|]);
      [left|right]; (split; [done|]); by exists sv, data, vs.
Qed.

(** A page with valid, repeated and invalid values. *)
Lemma extract_membership_witness :
  Scenario.b40 ∈ _extract_hashes_from_batch Scenario.page_mixed.
Proof.
  apply extract_membership. split; [reflexivity|].
  exists "C", (Scenario.file_hash
                 [VStr Scenario.a40; VStr Scenario.b40; VNone; VStr "short"]
                 [VStr Scenario.c32; VStr Scenario.a40; VInt 7]).
  eexists _,
    (FieldData (Some [VStr Scenario.a40; VStr Scenario.b40; VNone;
                      VStr "short"])), _.
  split; [apply lookup_singleton_eq|].
  split; [reflexivity|]. split; [reflexivity|]. split.
  - apply list_elem_of_In. right. left. reflexivity.
  - left. split; [reflexivity|]. vm_compute. reflexivity.
Defined.

Section Shapes.

Variable set_iter : gset string → list string.
Hypothesis set_iter_perm : ∀ X, set_iter X ≡ₚ elements X.

(** What a run returns was merged from some page. *)
Lemma returned_subseteq fuel limit batch_size post st0 why s :
  _get_file_hashes_direct set_iter fuel limit batch_size post st0
    = Returned why s →
  hashes s ⊆ accumulate (merged s).
Proof.
  intros Hrun.
  apply loop_returned in Hrun as [Hother Hlimit]; [|apply loop_inv_initial].
  destruct (decide (why = LIMIT_REACHED)) as [Hwhy|Hwhy].
  - destruct (Hlimit Hwhy) as (l & _ & _ & _ & ->). by apply trim_subseteq.
  - by rewrite (proj1 (Hother Hwhy)).
Qed.

End Shapes.

Lemma accumulate_shaped x pages :
  x ∈ accumulate pages → isalnum x = true ∧ (len x = 40 ∨ len x = 32).
Proof.
  intros (p & _ & Hx)%accumulate_elem.
  apply page_valid_strings_elem in Hx as (id & e & _ & Hx).
  apply entity_valid_strings_elem in Hx as (Hs & [[? _]|[? _]]); eauto.
Qed.

Lemma shaped_kind x :
  len x = 40 ∨ len x = 32 → hash_type x = "SHA1" ∨ hash_type x = "MD5".
Proof. unfold hash_type. intros [-> | ->]; [by left|by right]. Qed.

(** X10. Shape of the primary result.  Every string returned by the primary
    loop is alphanumeric, has length 40 or 32, so that its kind in the output
    is "SHA1" or "MD5", and was extracted from one of the pages the loop
    merged. *)
Theorem primary_hashes_are_shaped (set_iter : gset string → list string)
    fuel limit batch_size post st0 why s x :
  (∀ X, set_iter X ≡ₚ elements X) →
  _get_file_hashes_direct set_iter fuel limit batch_size post st0
    = Returned why s →
  x ∈ hashes s →
  isalnum x = true
  ∧ (len x = 40 ∨ len x = 32)
  ∧ (hash_type x = "SHA1" ∨ hash_type x = "MD5")
  ∧ ∃ file_hashes,
      file_hashes ∈ merged s ∧ x ∈ _extract_hashes_from_batch file_hashes.
Proof.
  intros Hiter Hrun Hx.
  apply (returned_subseteq _ Hiter _ _ _ _ _ _ _ Hrun) in Hx.
  destruct (accumulate_shaped _ _ Hx) as [Hs Hlen].
  split; [done|]. split; [done|]. split; [by apply shaped_kind|].
  apply accumulate_elem in Hx as (p & Hp & Hxp).
  exists p. split; [done|]. rewrite extract_eq. by apply elem_of_list_to_set.
Qed.

(** The run over [Scenario.page1]. *)
Lemma primary_hashes_are_shaped_witness :
  _get_file_hashes_direct elements 3 None 1000
    (Scenario.pages_in_turn [Scenario.page1]) Scenario.fresh
  = Returned SHORT_PAGE Cases.only_page1
  ∧ isalnum Scenario.a40 = true
  ∧ (len Scenario.a40 = 40 ∨ len Scenario.a40 = 32)
  ∧ (hash_type Scenario.a40 = "SHA1" ∨ hash_type Scenario.a40 = "MD5").
Proof.
  assert (Hrun :
    _get_file_hashes_direct elements 3 None 1000
      (Scenario.pages_in_turn [Scenario.page1]) Scenario.fresh
    = Returned SHORT_PAGE Cases.only_page1) by (vm_compute; reflexivity).
  split; [exact Hrun|].
  destruct (primary_hashes_are_shaped elements 3 None 1000 _ Scenario.fresh
              SHORT_PAGE Cases.only_page1 Scenario.a40
              (λ X, reflexivity (elements X)) Hrun)
    as (Hs & Hlen & Hkind & _).
  - unfold Cases.only_page1. cbn [hashes]. apply elem_of_singleton_2.
    reflexivity.
  - split; [exact Hs|]. split; [exact Hlen|exact Hkind].
Defined.

(** Counters after the Malop query. *)
Lemma malops_stats (post_malops : Z → post_result) limit st0 :
  batches_processed (_get_file_hashes_from_malops post_malops limit st0).2
  = batches_processed st0
  ∧ errors st0
    ≤ errors (_get_file_hashes_from_malops post_malops limit st0).2
  ∧ errors (_get_file_hashes_from_malops post_malops limit st0).2
    ≤ errors st0 + 1.
Proof.
  unfold _get_file_hashes_from_malops.
  destruct (post_malops _) as [code m|e]; [destruct (code =? 200)|];
    cbn; lia.
Qed.

(** X11. The Malop collector is best effort.  It asks for at most 1000
    results: 1000 when no limit (or limit 0) is given, and the smaller of the
    limit and 1000 for a positive limit.  It never touches the batch
    counter; a 200 answer leaves the error counter alone, and any other
    answer, status or exception, gives the empty set and one more error. *)
Theorem malops_best_effort (post_malops : Z → post_result) limit st0 :
  let answer := post_malops (malop_result_limit limit) in
  let result := _get_file_hashes_from_malops post_malops limit st0 in
  malop_result_limit limit ≤ 1000
  ∧ (truthy_opt limit = false → malop_result_limit limit = 1000)
  ∧ (∀ l, limit = Some l → 0 < l →
          malop_result_limit limit = Z.min l 1000
          ∧ 0 < malop_result_limit limit)
  ∧ batches_processed result.2 = batches_processed st0
  ∧ ((∃ malop_processes, answer = Response 200 malop_processes)
     → errors result.2 = errors st0)
  ∧ ((∀ malop_processes, answer ≠ Response 200 malop_processes)
     → result.1 = ∅ ∧ errors result.2 = errors st0 + 1).
Proof.
  intros answer result. split; [apply Z.le_min_r|].
  split; [by intros Hl; unfold malop_result_limit; rewrite Hl|].
  split.
  { intros l -> Hl. unfold malop_result_limit, truthy_opt.
    assert ((l =? 0) = false) as -> by lia. simpl. lia. }
  subst result answer. unfold _get_file_hashes_from_malops.
  destruct (post_malops (malop_result_limit limit)) as [code m|e].
  - destruct (Z.eqb_spec code 200) as [->|Hcode]; cbn [fst snd].
    + split; [done|]. split; [done|]. intros Hno. by destruct (Hno m).
    + split; [done|]. split; [|done]. intros (m' & [= ? _]). done.
  - cbn [fst snd]. split; [done|]. split; [|done]. by intros (m' & [=]).
Qed.

(** A limit of 5, against a 200 answer and against a 503 answer. *)
Lemma malops_best_effort_witness :
  malop_result_limit (Some 5) = Z.min 5 1000
  ∧ 0 < malop_result_limit (Some 5)
  ∧ errors (_get_file_hashes_from_malops Scenario.malops_two (Some 5)
              Scenario.fresh).2
    = errors Scenario.fresh
  ∧ (_get_file_hashes_from_malops (λ _, Response 503 ∅) (Some 5)
       Scenario.fresh).1 = ∅
  ∧ errors (_get_file_hashes_from_malops (λ _, Response 503 ∅) (Some 5)
              Scenario.fresh).2
    = errors Scenario.fresh + 1.
Proof.
  destruct (malops_best_effort Scenario.malops_two (Some 5) Scenario.fresh)
    as (_ & _ & Hlimit & _ & Hok & _).
  destruct (malops_best_effort (λ _, Response 503 ∅) (Some 5) Scenario.fresh)
    as (_ & _ & _ & _ & _ & Hfail).
  destruct (Hlimit 5 eq_refl eq_refl) as [Hmin Hpos].
  split; [exact Hmin|]. split; [exact Hpos|]. split.
  - apply Hok. eexists. reflexivity.
  - apply Hfail. intros m. discriminate.
Defined.

(** X12. What the Malop collector keeps.  A string is in its result exactly
    when the answer has status 200 and the string is not empty and occurs in
    the value list of one of the three image-file hash fields of some
    process.  Nothing is checked beyond that: neither the length nor the
    alphabet of the string. *)
Theorem malops_membership (post_malops : Z → post_result) limit st0 x :
  x ∈ (_get_file_hashes_from_malops post_malops limit st0).1
  ↔ x ≠ ""
    ∧ ∃ malop_processes process_id process_data simple_values hash_field
        hash_data vs,
        post_malops (malop_result_limit limit) = Response 200 malop_processes
        ∧ malop_processes !! process_id = Some process_data
        ∧ simpleValues process_data = Some simple_values
        ∧ hash_field ∈ malop_fields
        ∧ simple_values !! hash_field = Some hash_data
        ∧ values hash_data = Some vs
        ∧ VStr x ∈ vs.
Proof.
  unfold _get_file_hashes_from_malops.
  destruct (post_malops (malop_result_limit limit)) as [code m|e].
  - destruct (Z.eqb_spec code 200) as [->|Hcode]; cbn [fst].
    + rewrite foldl_malop_entity, (left_id_L ∅ (∪)), elem_of_list_to_set.
      rewrite list_elem_of_In, in_concat. setoid_rewrite <- list_elem_of_In.
      split.
      * intros (l & Hl & Hx). apply list_elem_of_fmap in Hl as (pd & -> & Hpd).
        apply list_elem_of_fmap in Hpd as ([id pd'] & -> & Hpd).
        apply elem_of_map_to_list in Hpd.
        apply malop_entity_strings_elem in Hx as (Hne & f & Hf & Hv).
        apply field_values_elem in Hv as (sv & hd & vs & ? & ? & ? & ?).
        split; [done|]. exists m, id, pd', sv, f, hd, vs. cbn [snd]. eauto 10.
      * intros (Hne & m' & id & pd & sv & f & hd & vs & [= <-] & Hpd & Hsv
                & Hf & Hhd & Hvs & Hv).
        exists (malop_entity_strings pd). split.
        -- apply list_elem_of_fmap. exists pd. split; [done|].
           apply list_elem_of_fmap. exists (id, pd). split; [done|].
           by apply elem_of_map_to_list.
        -- apply malop_entity_strings_elem. split; [done|]. exists f.
           split; [done|]. apply field_values_elem. by exists sv, hd, vs.
    + split; [by intros ?%not_elem_of_empty|].
      intros (_ & m' & ? & ? & ? & ? & ? & ? & [= ? _] & _). done.
  - cbn [fst]. split; [by intros ?%not_elem_of_empty|].
    intros (_ & m' & ? & ? & ? & ? & ? & ? & [=] & _).
Qed.

(** A string that is no hash is kept, the empty string is not. *)
Lemma malops_membership_witness :
  "not-a-hash" ∈ (_get_file_hashes_from_malops Cases.malops_odd None
                    Scenario.fresh).1
  ∧ ("" ∉ (_get_file_hashes_from_malops Cases.malops_odd None
             Scenario.fresh).1).
Proof.
  split.
  - apply malops_membership. split; [discriminate|].
    eexists _, "P", _, _, "imageFile.sha256String",
      (FieldData (Some [VStr "not-a-hash"; VStr ""; VNone])), _.
    split; [reflexivity|]. split; [apply lookup_singleton_eq|].
    split; [reflexivity|]. split.
    { apply list_elem_of_In. right. right. left. reflexivity. }
    split; [apply lookup_singleton_eq|]. split; [reflexivity|].
    apply list_elem_of_In. left. reflexivity.
  - intros Hin. apply malops_membership in Hin as [Hne _]. apply Hne.
    reflexivity.
Defined.

(** X13. The orchestrator only adds to the primary pass.  The returned set
    holds every hash of the primary pass, and any further hash comes from the
    Malop answer; the Malop query leaves the batch counter alone and adds at
    most one error; without a Malop query the primary set and counters are
    returned unchanged; and a Malop query always asks for between 1 and 1000
    results. *)
Theorem collection_extends_primary (set_iter : gset string → list string)
    fuel max_hashes batch_size post post_malops st0 c :
  _collect_hashes_efficiently set_iter fuel max_hashes batch_size post
    post_malops st0 = Some c →
  let primary := primary_state c in
  let malop := _get_file_hashes_from_malops post_malops
                 (remaining max_hashes (hashes primary)) (st primary) in
  hashes primary ⊆ all_hashes c
  ∧ (∀ x, x ∈ all_hashes c →
          x ∈ hashes primary ∨ (is_Some (malop_request c) ∧ x ∈ malop.1))
  ∧ batches_processed (stats_after c) = batches_processed (st primary)
  ∧ errors (st primary) ≤ errors (stats_after c) ≤ errors (st primary) + 1
  ∧ (malop_request c = None →
     all_hashes c = hashes primary ∧ stats_after c = st primary)
  ∧ (∀ r, malop_request c = Some r → 1 ≤ r ≤ 1000).
Proof.
  intros Hcollect.
  destruct (_get_file_hashes_direct set_iter fuel max_hashes batch_size post
              st0) as [why s| |] eqn:Hrun;
    [|unfold _collect_hashes_efficiently in Hcollect;
      by rewrite Hrun in Hcollect..].
  rewrite (collect_after_primary _ _ _ _ _ post_malops _ _ _ Hrun) in Hcollect.
  injection Hcollect as <-.
  destruct (malops_needed max_hashes (hashes s)) eqn:Hneeded;
    cbn [malop_request all_hashes stats_after primary_reason primary_state].
  - pose proof (malops_stats post_malops (remaining max_hashes (hashes s))
                  (st s)) as (Hb & He1 & He2).
    split; [set_solver|]. split.
    { intros x [Hx|Hx]%elem_of_union; [by left|right]. by split; [eexists|]. }
    split; [done|]. split; [done|]. split; [done|].
    intros r [= <-]. apply malops_needed_true in Hneeded as [_ Hm].
    unfold malop_result_limit, remaining.
    destruct max_hashes as [m|]; [|cbn; lia].
    specialize (Hm m eq_refl). unfold len_set in *. cbn [truthy_opt].
    assert ((m =? 0) = false) as -> by lia. cbn [negb truthy_opt].
    assert ((m - Z.of_nat (size (hashes s)) =? 0) = false) as -> by lia.
    simpl. lia.
  - split; [done|]. split; [by left|]. split; [done|]. split; [lia|].
    split; [done|]. done.
Qed.

(** One primary hash and two Malop hashes. *)
Lemma collection_extends_primary_witness :
  let c :=
    {| all_hashes := {[ Scenario.a40; Scenario.b40; Scenario.c32 ]};
       stats_after := Scenario.fresh;
       malop_request := Some 1000;
       primary_reason := SHORT_PAGE;
       primary_state := Cases.only_page1 |} in
  _collect_hashes_efficiently elements 3 None 1000
    (Scenario.pages_in_turn [Scenario.page1]) Scenario.malops_two
    Scenario.fresh = Some c
  ∧ hashes (primary_state c) ⊆ all_hashes c
  ∧ (∀ r, malop_request c = Some r → 1 ≤ r ≤ 1000).
Proof.
  intros c.
  assert (Hcollect :
    _collect_hashes_efficiently elements 3 None 1000
      (Scenario.pages_in_turn [Scenario.page1]) Scenario.malops_two
      Scenario.fresh = Some c) by (vm_compute; reflexivity).
  split; [exact Hcollect|].
  destruct (collection_extends_primary elements 3 None 1000 _ _ _ c Hcollect)
    as (Hsub & _ & _ & _ & _ & Hlimit).
  split; [exact Hsub|exact Hlimit].
Defined.

(** X14. A target met by the primary pass.  With a positive target, when the
    primary loop stops as LIMIT_REACHED the orchestrator does not query the
    Malop source and returns exactly [target] hashes, all taken from the
    merged pages, with the counters of the primary pass. *)
Theorem target_met_by_primary (set_iter : gset string → list string)
    fuel target batch_size post post_malops st0 c :
  (∀ X, set_iter X ≡ₚ elements X) →
  0 < target →
  _collect_hashes_efficiently set_iter fuel (Some target) batch_size post
    post_malops st0 = Some c →
  primary_reason c = LIMIT_REACHED →
  malop_request c = None
  ∧ len_set (all_hashes c) = target
  ∧ all_hashes c ⊆ accumulate (merged (primary_state c))
  ∧ stats_after c = st (primary_state c).
Proof.
  intros Hiter Hpos Hcollect Hwhy.
  destruct (_get_file_hashes_direct set_iter fuel (Some target) batch_size
              post st0) as [why s| |] eqn:Hrun;
    [|unfold _collect_hashes_efficiently in Hcollect;
      by rewrite Hrun in Hcollect..].
  rewrite (collect_after_primary _ _ _ _ _ post_malops _ _ _ Hrun) in Hcollect.
  pose proof (returned_subseteq _ Hiter _ _ _ _ _ _ _ Hrun) as Hsub.
  apply loop_returned in Hrun as [_ Hlimit]; [|apply loop_inv_initial].
  assert (why = LIMIT_REACHED) as ->.
  { injection Hcollect as <-. by destruct (malops_needed _ _). }
  destruct (Hlimit eq_refl) as (l & [= <-] & _ & Hle & Heq).
  assert (len_set (hashes s) = target) as Hsize.
  { rewrite Heq. apply trim_size; [done|lia|done]. }
  assert (malops_needed (Some target) (hashes s) = false) as Hno.
  { unfold malops_needed, wants_more. apply andb_false_iff. left.
    apply Z.ltb_ge. lia. }
  rewrite Hno in Hcollect. injection Hcollect as <-.
  cbn [malop_request all_hashes stats_after primary_state]. done.
Qed.

(** Target 2 against a page with three hashes. *)
Lemma target_met_by_primary_witness :
  let c := Cases.collected
             (_collect_hashes_efficiently elements 3 (Some 2) 1000
                (Scenario.pages_in_turn [Scenario.page_mixed])
                Scenario.malops_two Scenario.fresh) in
  primary_reason c = LIMIT_REACHED
  ∧ malop_request c = None
  ∧ len_set (all_hashes c) = 2.
Proof.
  intros c.
  assert (Hwhy : primary_reason c = LIMIT_REACHED)
    by (vm_compute; reflexivity).
  split; [exact Hwhy|].
  destruct (target_met_by_primary elements 3 2 1000
              (Scenario.pages_in_turn [Scenario.page_mixed])
              Scenario.malops_two Scenario.fresh c
              (λ X, reflexivity (elements X)) eq_refl)
    as (Hno & Hsize & _); [vm_compute; reflexivity|exact Hwhy|].
  split; [exact Hno|exact Hsize].
Defined.

(** X15. Rows of other kinds come from the Malop source.  In the rows written
    for a collection, a row whose kind is neither "SHA1" nor "MD5" carries a
    string that the primary pass did not return: the Malop source was
    queried and answered with it. *)
Theorem unshaped_rows_come_from_malops
    (set_iter : gset string → list string)
    fuel max_hashes batch_size post post_malops st0 c date row :
  (∀ X, set_iter X ≡ₚ elements X) →
  _collect_hashes_efficiently set_iter fuel max_hashes batch_size post
    post_malops st0 = Some c →
  row ∈ csv_rows set_iter (all_hashes c) date →
  row.1.2 ≠ "SHA1" →
  row.1.2 ≠ "MD5" →
  (row.1.1 ∉ hashes (primary_state c))
  ∧ is_Some (malop_request c)
  ∧ row.1.1
    ∈ (_get_file_hashes_from_malops post_malops
         (remaining max_hashes (hashes (primary_state c)))
         (st (primary_state c))).1.
Proof.
  intros Hiter Hcollect Hrow Hsha1 Hmd5.
  unfold csv_rows in Hrow. apply list_elem_of_fmap in Hrow as (h & -> & Hh).
  cbn [fst snd] in *.
  rewrite (sorted_perm _ _ Hiter), elem_of_elements in Hh.
  assert (h ∉ hashes (primary_state c)) as Hnot.
  { intros Hprimary.
    pose proof (collect_primary _ _ _ _ _ _ _ _ Hcollect) as Hrun.
    apply (returned_subseteq _ Hiter _ _ _ _ _ _ _ Hrun) in Hprimary.
    apply accumulate_shaped in Hprimary as [_ Hlen].
    by destruct (shaped_kind _ Hlen). }
  split; [done|].
  destruct (_get_file_hashes_direct set_iter fuel max_hashes batch_size post
              st0) as [why s| |] eqn:Hrun;
    [|unfold _collect_hashes_efficiently in Hcollect;
      by rewrite Hrun in Hcollect..].
  rewrite (collect_after_primary _ _ _ _ _ post_malops _ _ _ Hrun) in Hcollect.
  injection Hcollect as <-.
  destruct (malops_needed max_hashes (hashes s)) eqn:Hneeded;
    cbn [malop_request all_hashes stats_after primary_state] in *.
  - split; [by eexists|]. set_solver.
  - done.
Qed.

(** A Malop answer with a string that is no hash gives an UNKNOWN row. *)
Lemma unshaped_rows_come_from_malops_witness :
  let c := Cases.collected
             (_collect_hashes_efficiently elements 3 None 1000
                (Scenario.pages_in_turn [Scenario.page1]) Cases.malops_odd
                Scenario.fresh) in
  ("not-a-hash", "UNKNOWN", "2025-01-01 00:00:00")
    ∈ csv_rows elements (all_hashes c) "2025-01-01 00:00:00"
  ∧ ("not-a-hash" ∉ hashes (primary_state c))
  ∧ is_Some (malop_request c).
Proof.
  intros c.
  assert (Hrow : ("not-a-hash", "UNKNOWN", "2025-01-01 00:00:00")
                 ∈ csv_rows elements (all_hashes c) "2025-01-01 00:00:00").
  { vm_compute. apply list_elem_of_In. right. left. reflexivity. }
  split; [exact Hrow|].
  destruct (unshaped_rows_come_from_malops elements 3 None 1000
              (Scenario.pages_in_turn [Scenario.page1]) Cases.malops_odd
              Scenario.fresh c "2025-01-01 00:00:00"
              ("not-a-hash", "UNKNOWN", "2025-01-01 00:00:00")
              (λ X, reflexivity (elements X)))
    as (Hnot & Hquery & _);
    [vm_compute; reflexivity|exact Hrow|discriminate|discriminate|].
  split; [exact Hnot|exact Hquery].
Defined.



(** ** Construction and authentication *)

Section Handshake.

Lemma lower_app s1 s2 : lower (s1 +:+ s2) = lower s1 +:+ lower s2.
Proof.
  induction s1 as [|c s1 IH]; [done|].
  change (String c s1 +:+ s2) with (String c (s1 +:+ s2)).
  cbn [lower]. by rewrite IH.
Qed.

Lemma len_lower s : len (lower s) = len s.
Proof.
  unfold len. f_equal. induction s as [|c s IH]; [done|].
  cbn [lower String.length]. by rewrite IH.
Qed.

Lemma str_in_lower_app needle a m b :
  lower m = needle → str_in needle (lower (a +:+ m +:+ b)) = true.
Proof.
  intros <-. rewrite !lower_app. apply str_in_spec. by eexists _, _.
Qed.

Lemma rstrip_nil_iff ch s :
  rstrip ch s = "" ↔ ∃ n, s = repeat_char ch n.
Proof.
  induction s as [|c s IH]; cbn [rstrip].
  - split; [by exists 0%nat|done].
  - destruct (rstrip ch s) as [|d kept] eqn:Hkept.
    + destruct (Ascii.eqb_spec c ch) as [->|Hc].
      * split; [|done]. intros _.
        destruct (proj1 IH eq_refl) as [n ->]. by exists (S n).
      * split; [done|]. intros [[|n] Hn]; [done|]. by injection Hn.
    + split; [done|]. intros [[|n] Hn]; [done|].
      injection Hn as -> ->.
      assert (String d kept = "") as Hnil by (apply IH; by exists n). done.
Qed.

Lemma rstrip_decompose ch s :
  ∃ n, s = rstrip ch s +:+ repeat_char ch n.
Proof.
  induction s as [|c s [n IH]]; cbn [rstrip]; [by exists 0%nat|].
  destruct (rstrip ch s) as [|d kept] eqn:Hkept.
  - destruct (Ascii.eqb_spec c ch) as [->|Hc].
    + exists (S n). by rewrite IH at 1.
    + exists n. by rewrite IH at 1.
  - exists n. by rewrite IH at 1.
Qed.

Lemma rstrip_no_trailing ch s r : rstrip ch s ≠ r +:+ String ch "".
Proof.
  revert r. induction s as [|c s IH]; intros r; cbn [rstrip].
  - by destruct r.
  - destruct (rstrip ch s) as [|d kept] eqn:Hkept.
    + destruct (Ascii.eqb_spec c ch) as [->|Hc]; [by destruct r|].
      destruct r as [|e [|??]]; [|done..]. intros [= ->]. done.
    + destruct r as [|e r]; [done|]. intros [= -> Hr]. by apply (IH r).
Qed.

Lemma rstrip_idem ch s : rstrip ch (rstrip ch s) = rstrip ch s.
Proof.
  induction s as [|c s IH]; [done|]. cbn [rstrip].
  destruct (rstrip ch s) as [|d kept] eqn:Hkept.
  - destruct (Ascii.eqb_spec c ch) as [->|Hc]; [done|]. cbn [rstrip].
    by destruct (Ascii.eqb_spec c ch).
  - cbn [rstrip] in *. by rewrite IH.
Qed.

End Handshake.

(** X17. The stored server URL.  [__init__] removes all the trailing slashes
    of the server URL and nothing else: the given URL is the stored one
    followed by slashes, the stored one does not end with a slash, storing
    it again changes nothing, and it is empty exactly when the given URL is
    made of slashes only. *)
Theorem server_url_has_no_trailing_slash server_url :
  (∃ n, server_url = init_server_url server_url +:+ repeat_char "/" n)
  ∧ (∀ r, init_server_url server_url ≠ r +:+ "/")
  ∧ init_server_url (init_server_url server_url) = init_server_url server_url
  ∧ (init_server_url server_url = "" ↔ ∃ n, server_url = repeat_char "/" n).
Proof.
  unfold init_server_url. split; [apply rstrip_decompose|].
  split; [apply rstrip_no_trailing|].
  split; [apply rstrip_idem|apply rstrip_nil_iff].
Qed.

(** Two trailing slashes are removed. *)
Lemma server_url_has_no_trailing_slash_witness :
  init_server_url "https://x.cybereason.net//" = "https://x.cybereason.net"
  ∧ init_server_url "https://x.cybereason.net//" ≠ "https://x" +:+ "/".
Proof.
  split; [reflexivity|].
  apply (proj1 (proj2 (server_url_has_no_trailing_slash
                         "https://x.cybereason.net//"))).
Defined.

(** X18. The authentication handshake.  [authenticate] requests the server
    root, then the login page, then posts the credentials, and stops at the
    first step that fails.  The credentials are posted exactly when the root
    answered with status 200, 401 or 403 and the login page with status 200.
    The result is true exactly when the credentials were posted and the
    answer to them, whatever its status code, passes
    [_is_authentication_successful]. *)
Theorem authenticate_protocol (srv : server) server_url username password
    ok calls :
  authenticate srv server_url username password = (ok, calls) →
  let root := GET (server_url +:+ "/") in
  let login_page := GET (server_url +:+ "/login.html") in
  let login := POST (server_url +:+ "/login.html") username password in
  (calls = [root] ∨ calls = [root; login_page]
   ∨ calls = [root; login_page; login])
  ∧ (login ∈ calls
     ↔ (∃ code url text,
          srv root = HttpResponse code url text ∧ server_is_up code = true)
       ∧ ∃ url text, srv login_page = HttpResponse 200 url text)
  ∧ (ok = true
     ↔ login ∈ calls
       ∧ ∃ code url text,
           srv login = HttpResponse code url text
           ∧ _is_authentication_successful url text = true).
Proof.
  unfold authenticate, _test_server_accessibility, _perform_login. cbv zeta.
  destruct (srv (GET (server_url +:+ "/"))) as [rc ru rt|re] eqn:Hroot;
    cbn [negb].
  - destruct (server_is_up rc) eqn:Hup; cbn [negb].
    + destruct (srv (GET (server_url +:+ "/login.html"))) as [lc lu lt|le]
        eqn:Hpage.
      * destruct (Z.eqb_spec lc 200) as [->|Hlc]; cbn [negb].
        -- destruct (srv (POST _ _ _)) as [pc pu pt|pe] eqn:Hpost;
             intros [= <- <-]; cbn [app].
           ++ split; [by right; right|]. split.
              ** split; [intros _; split; eauto|intros _; set_solver].
              ** split.
                 --- intros Hok. split; [set_solver|]. by exists pc, pu, pt.
                 --- by intros [_ (? & ? & ? & [= _ <- <-] & ?)].
           ++ split; [by right; right|]. split.
              ** split; [intros _; split; eauto|intros _; set_solver].
              ** split; [done|]. by intros [_ (? & ? & ? & [=] & _)].
        -- intros [= <- <-]. cbn [app]. split; [by right; left|]. split.
           ++ split.
              ** intros [[=]|[[=]|?%elem_of_nil]%elem_of_cons]%elem_of_cons.
                 done.
              ** intros [_ (? & ? & [= ? _ _])]. done.
           ++ split; [done|].
              intros [[[=]|[[=]|?%elem_of_nil]%elem_of_cons]%elem_of_cons _].
              done.
      * intros [= <- <-]. cbn [app]. split; [by right; left|]. split.
        -- split.
           ++ intros [[=]|[[=]|?%elem_of_nil]%elem_of_cons]%elem_of_cons.
              done.
           ++ by intros [_ (? & ? & [=])].
        -- split; [done|].
           intros [[[=]|[[=]|?%elem_of_nil]%elem_of_cons]%elem_of_cons _].
           done.
    + intros [= <- <-]. split; [by left|]. split.
      * split.
        -- intros [[=]|?%elem_of_nil]%elem_of_cons. done.
        -- intros [(? & ? & ? & [= <- _ _] & Hup') _]. congruence.
      * split; [done|]. intros [[[=]|?%elem_of_nil]%elem_of_cons _]. done.
  - intros [= <- <-]. split; [by left|]. split.
    + split.
      * intros [[=]|?%elem_of_nil]%elem_of_cons. done.
      * by intros [(? & ? & ? & [=] & _) _].
    + split; [done|]. intros [[[=]|?%elem_of_nil]%elem_of_cons _]. done.
Qed.

(** A server whose login answers with status 500 on a URL holding "MAIN":
    authentication succeeds. *)
Lemma authenticate_protocol_witness :
  authenticate Cases.portal "https://x" "user" "secret"
  = (true, [GET "https://x/"; GET "https://x/login.html";
            POST "https://x/login.html" "user" "secret"])
  ∧ (POST "https://x/login.html" "user" "secret"
       ∈ [GET "https://x/"; GET "https://x/login.html";
          POST "https://x/login.html" "user" "secret"]
     ↔ (∃ code url text,
          Cases.portal (GET "https://x/") = HttpResponse code url text
          ∧ server_is_up code = true)
       ∧ ∃ url text,
           Cases.portal (GET "https://x/login.html")
           = HttpResponse 200 url text).
Proof.
  assert (Hauth :
    authenticate Cases.portal "https://x" "user" "secret"
    = (true, [GET "https://x/"; GET "https://x/login.html";
              POST "https://x/login.html" "user" "secret"]))
    by reflexivity.
  split; [exact Hauth|].
  exact (proj1 (proj2 (authenticate_protocol Cases.portal "https://x" "user"
                         "secret" _ _ Hauth))).
Defined.

(** X19. What counts as a successful login.  The answer to the credentials is
    accepted exactly when its URL or its text holds "dashboard" or "main" in
    any letter case, or its text holds "app></app>", or its text is longer
    than 2000 characters.  So any long page is accepted, and so is any URL or
    text in which "main" occurs inside a longer word. *)
Theorem authentication_heuristic url text :
  (_is_authentication_successful url text = true
   ↔ str_in "dashboard" (lower url) = true
     ∨ str_in "main" (lower url) = true
     ∨ str_in "dashboard" (lower text) = true
     ∨ str_in "main" (lower text) = true
     ∨ str_in "app></app>" text = true
     ∨ 2000 < len text)
  ∧ (2000 < len text → _is_authentication_successful url text = true)
  ∧ (∀ a m b, lower m = "main" ∨ lower m = "dashboard" →
        _is_authentication_successful (a +:+ m +:+ b) text = true
        ∧ _is_authentication_successful url (a +:+ m +:+ b) = true)
  ∧ (∀ a b, _is_authentication_successful url (a +:+ "app></app>" +:+ b)
            = true).
Proof.
  assert (Hiff : ∀ u t,
    _is_authentication_successful u t = true
    ↔ str_in "dashboard" (lower u) = true
      ∨ str_in "main" (lower u) = true
      ∨ str_in "dashboard" (lower t) = true
      ∨ str_in "main" (lower t) = true
      ∨ str_in "app></app>" t = true
      ∨ 2000 < len t).
  { intros u t. unfold _is_authentication_successful.
    destruct (str_in "dashboard" (lower u)); [by split; [left|]|].
    destruct (str_in "main" (lower u)); [by split; [right; left|]|].
    destruct (str_in "dashboard" (lower t)); [by split; [right; right; left|]|].
    destruct (str_in "main" (lower t));
      [by split; [right; right; right; left|]|].
    destruct (str_in "app></app>" t);
      [by split; [right; right; right; right; left|]|].
    cbn [orb]. destruct (Z.ltb_spec 2000 (len t)).
    - split; [|done]. intros _. do 5 right. done.
    - split; [done|]. intros [|[|[|[|[|]]]]]; try done. lia. }
  split; [apply Hiff|]. split; [|split].
  - intros Hlen. apply Hiff. do 5 right. done.
  - intros a m b [Hm|Hm]; split; apply Hiff.
    + right. left. by apply str_in_lower_app.
    + do 3 right. left. by apply str_in_lower_app.
    + left. by apply str_in_lower_app.
    + do 2 right. left. by apply str_in_lower_app.
  - intros a b. apply Hiff. do 4 right. left. apply str_in_spec.
    by exists a, b.
Qed.

(** A URL with "MAIN", and an error page that mentions a "domain". *)
Lemma authentication_heuristic_witness :
  _is_authentication_successful "https://x/MAIN" "" = true
  ∧ _is_authentication_successful "https://x/login.html?error=1"
      "Please check your domain name" = true.
Proof.
  destruct (authentication_heuristic "https://x/login.html?error=1" "")
    as (_ & _ & Hword & _).
  split.
  - apply (Hword "https://x/" "MAIN" ""). left. reflexivity.
  - apply (Hword "Please check your do" "main" " name"). left. reflexivity.
Defined.

(** X20. Why a run stopped.  When the primary loop returns, the answer to its
    last request was what the reason says: an empty result map with status
    200 for PAGE_EMPTY; a non-empty page that brought no new hash for
    STAGNANT; a page with which the target was reached for LIMIT_REACHED; a
    page with fewer entities than asked for SHORT_PAGE; a full page that
    took the batch counter to the ceiling for BATCH_CAP_REACHED; a status
    other than 200 for BAD_STATUS; and an exception that is no connection
    error for REQUEST_FAILED.  [skip] moved in the last iteration only for
    BATCH_CAP_REACHED. *)
Theorem stop_reason_sound (set_iter : gset string → list string)
    fuel limit batch_size post st0 why s' :
  _get_file_hashes_direct set_iter fuel limit batch_size post st0
    = Returned why s' →
  ∃ s,
    entered set_iter limit batch_size post st0 s
    ∧ requests s' = S (requests s)
    ∧ skip s' = (if decide (why = BATCH_CAP_REACHED)
                 then skip s
                      + page_size batch_size (remaining limit (hashes s))
                 else skip s)
    ∧ stop_condition limit batch_size
        (post (requests s)
           (page_size batch_size (remaining limit (hashes s))) (skip s))
        s s' why.
Proof.
  intros Hrun. apply run_from_entered in Hrun as (s & Hent & Hstep).
  exists s. split; [done|]. revert Hstep.
  unfold direct_step, on_page, stop_condition. cbv zeta.
  destruct (batch_size =? 0); [done|].
  destruct (post _ _ _) as [code file_hashes|str_e].
  - destruct (Z.eqb_spec code 200) as [->|Hcode].
    + destruct (bool_decide (file_hashes = ∅)) eqn:Hempty.
      { apply bool_decide_eq_true in Hempty as ->. by intros [= <- <-]. }
      apply bool_decide_eq_false in Hempty.
      cbn [hashes skip st requests merged].
      destruct (Z.eqb_spec
                  (len_set (hashes s ∪ _extract_hashes_from_batch file_hashes)
                   - len_set (hashes s)) 0) as [Hnew|Hnew].
      { intros [= <- <-]. cbn [hashes skip requests]. split; [done|].
        split; [done|]. exists file_hashes.
        assert (size (hashes s ∪ _extract_hashes_from_batch file_hashes)
                ≤ size (hashes s))%nat as Hsize
          by (unfold len_set in Hnew; lia).
        pose proof (set_subseteq_size_eq (hashes s)
                      (hashes s ∪ _extract_hashes_from_batch file_hashes)
                      (union_subseteq_l _ _) Hsize) as Hsame.
        split; [done|]. split; [done|]. split; [|by rewrite <- Hsame].
        rewrite Hsame. set_solver. }
      destruct (limit_hit limit _) eqn:Hhit.
      { intros [= <- <-]. cbn [hashes skip requests]. split; [done|].
        split; [done|]. apply limit_hit_true in Hhit as (l & -> & ? & ?).
        by exists file_hashes, l. }
      destruct (Z.ltb_spec (len_page file_hashes)
                  (page_size batch_size (remaining limit (hashes s)))).
      { intros [= <- <-]. cbn [hashes skip requests]. split; [done|].
        split; [done|]. by exists file_hashes. }
      destruct (Z.leb_spec max_batches
                  (batches_processed (count_batch (st s)))); [|done].
      intros [= <- <-]. cbn [hashes skip requests st]. split; [done|].
      split; [done|]. by exists file_hashes.
    + intros [= <- <-]. cbn [hashes skip requests]. split; [done|].
      split; [done|]. by exists code, file_hashes.
  - destruct (is_connection_error str_e) eqn:Herr; [done|].
    intros [= <- <-]. cbn [hashes skip requests]. split; [done|].
    split; [done|]. by exists str_e.
Qed.

(** The run that ends on an empty answer. *)
Lemma stop_reason_sound_witness :
  let run := _get_file_hashes_direct elements 6 None 1 Cases.flaky
               Scenario.fresh in
  run = Returned PAGE_EMPTY (Scenario.final_state run)
  ∧ ∃ s,
      entered elements None 1 Cases.flaky Scenario.fresh s
      ∧ requests (Scenario.final_state run) = S (requests s)
      ∧ Cases.flaky (requests s)
          (page_size 1 (remaining None (hashes s))) (skip s)
        = Response 200 ∅.
Proof.
  intros run.
  assert (Hrun : run = Returned PAGE_EMPTY (Scenario.final_state run))
    by (vm_compute; reflexivity).
  split; [exact Hrun|].
  destruct (stop_reason_sound elements 6 None 1 Cases.flaky Scenario.fresh
              PAGE_EMPTY (Scenario.final_state run) Hrun)
    as (s & Hent & Hreq & _ & Hanswer & _).
  exists s. split; [exact Hent|]. split; [exact Hreq|exact Hanswer].
Defined.
